(** * Cobweb: incremental concept formation (src/cobweb.py)

    A shallow embedding of the [Cobweb] class.

    - A Python object is a value of the inductive type [Cobweb]; its identity
      is the number drawn from the class counter by [gensym] at construction
      (the source names the object ["Concept" + str(counter)] and hashes that
      name).  Comparisons [c == child] and [list.remove] compare identities.
    - The class counter is threaded through every constructor call by the
      state-and-exception monad [M].
    - Python dictionaries are insertion-ordered association lists.
    - Python floats are an interface [FloatOps]; two instances are given:
      exact rationals and IEEE 754 binary64.
    - [parent] is a non-owning back-reference; in a tree-shaped value it is
      determined by the position of the node and is not stored. *)

From Stdlib Require Import List ZArith QArith Qreduction Bool Arith Lia String Ascii.
From Stdlib Require Import Permutation.
From Stdlib Require Sorted.
From Stdlib Require SpecFloat.
Import ListNotations.

Set Implicit Arguments.

Local Open Scope Z_scope.

(* ================================================================== *)
(** * Exceptions, outcomes and the class-state monad *)

(** The exceptions the modelled methods can raise. *)
Inductive exn : Type :=
| Exception (msg : string)      (* raise Exception("...") *)
| ZeroDivisionError             (* float division by zero *)
| ValueError                    (* list.remove(x): x not in list *)
| IndexError                    (* operations[0] on an empty list *)
| AttributeError                (* attribute access on a non-object *)
| AssertionError.               (* a failed assert *)

(** [OutOfFuel] is not a Python outcome: it marks a [while] loop cut by the
    fuel of the model. *)
Inductive outcome (A : Type) : Type :=
| Ok (a : A)
| Raise (e : exn)
| OutOfFuel.

Arguments Ok {A} a.
Arguments Raise {A} e.
Arguments OutOfFuel {A}.

(** The state is [Cobweb.counter], the class variable behind [gensym]. *)
Definition M (A : Type) : Type := nat -> outcome (A * nat).

Definition ret {A} (a : A) : M A := fun k => Ok (a, k).

Definition bind {A B} (m : M A) (f : A -> M B) : M B :=
  fun k =>
    match m k with
    | Ok (a, k') => f a k'
    | Raise e => Raise e
    | OutOfFuel => OutOfFuel
    end.

Definition raise {A} (e : exn) : M A := fun _ => Raise e.

Definition out_of_fuel {A} : M A := fun _ => OutOfFuel.

Declare Scope cobweb_scope.
Delimit Scope cobweb_scope with cobweb.

Notation "x <- m ;; k" := (bind m (fun x => k))
  (at level 61, m at next level, right associativity) : cobweb_scope.
Notation "' pat <- m ;; k" := (bind m (fun x => match x with pat => k end))
  (at level 61, pat pattern, m at next level, right associativity) : cobweb_scope.

Local Open Scope cobweb_scope.

(** [for x in l: s = body(s, x)] *)
Fixpoint for_each {A S} (l : list A) (body : S -> A -> M S) (s : S) : M S :=
  match l with
  | [] => ret s
  | x :: l' => s' <- body s x ;; for_each l' body s'
  end.

(** [[f(x) for x in l]] *)
Fixpoint map_m {A B} (f : A -> M B) (l : list A) : M (list B) :=
  match l with
  | [] => ret []
  | x :: l' => y <- f x ;; ys <- map_m f l' ;; ret (y :: ys)
  end.

(* ================================================================== *)
(** * Python dictionaries *)

(** Attribute values: hashable tokens.  The source also lets a value be a
    concept (Labyrinth and Trestle store references to nodes), and the fringe
    split may store [None]; a concept is compared by identity. *)
Inductive value : Type :=
| VStr (s : string)
| VConcept (name : nat)
| VNone.

Definition value_eqb (v w : value) : bool :=
  match v, w with
  | VStr s, VStr t => String.eqb s t
  | VConcept a, VConcept b => Nat.eqb a b
  | VNone, VNone => true
  | _, _ => false
  end.

Section Dict.
Variables K V : Type.
Variable eqb : K -> K -> bool.

Definition dict : Type := list (K * V).

(** [d.get(k)] *)
Fixpoint dict_get (d : dict) (k : K) : option V :=
  match d with
  | [] => None
  | (k', v) :: d' => if eqb k' k then Some v else dict_get d' k
  end.

(** [d[k] = v]: an existing key keeps its place, a new one goes last. *)
Fixpoint dict_set (d : dict) (k : K) (v : V) : dict :=
  match d with
  | [] => [(k, v)]
  | (k', v') :: d' =>
      if eqb k' k then (k', v) :: d' else (k', v') :: dict_set d' k v
  end.

(** [k in d] *)
Definition dict_mem (d : dict) (k : K) : bool :=
  match dict_get d k with Some _ => true | None => false end.

Definition dict_keys (d : dict) : list K := map fst d.
End Dict.

Arguments dict_get {K V} eqb d k.
Arguments dict_set {K V} eqb d k v.
Arguments dict_mem {K V} eqb d k.
Arguments dict_keys {K V} d.

(** [av_counts]: attribute -> value -> count. *)
Definition val_counts : Type := dict value Z.
Definition av_dict : Type := dict string val_counts.
(** An instance: attribute -> value. *)
Definition Instance : Type := dict string value.

(* ================================================================== *)
(** * Floats *)

Class FloatOps (F : Type) : Type := {
  f0 : F;                      (* 0.0 *)
  f1 : F;                      (* 1.0 *)
  of_int : Z -> F;             (* float(n) *)
  fadd : F -> F -> F;
  fsub : F -> F -> F;
  fmul : F -> F -> F;
  fdiv : F -> F -> F;          (* only reached with a non-zero divisor *)
  feqb : F -> F -> bool;       (* == *)
  fltb : F -> F -> bool;       (* <  *)
  fleb : F -> F -> bool        (* <= *)
}.

(** Exact arithmetic. *)
#[export] Instance Q_FloatOps : FloatOps Q := {
  f0 := 0%Q;
  f1 := 1%Q;
  of_int := inject_Z;
  fadd := Qplus;
  fsub := Qminus;
  fmul := Qmult;
  fdiv := Qdiv;
  feqb := Qeq_bool;
  fltb := fun x y => negb (Qle_bool y x);
  fleb := Qle_bool
}.

(** IEEE 754 binary64, the format of a Python float. *)
Module Binary64.
Import SpecFloat.
Definition prec : Z := 53.
Definition emax : Z := 1024.
Definition t : Type := spec_float.
Definition of_Z (n : Z) : t := binary_normalize prec emax n 0 false.
End Binary64.

Definition Binary64_FloatOps : FloatOps Binary64.t := {|
  f0 := SpecFloat.S754_zero false;
  f1 := Binary64.of_Z 1;
  of_int := Binary64.of_Z;
  fadd := SpecFloat.SFadd Binary64.prec Binary64.emax;
  fsub := SpecFloat.SFsub Binary64.prec Binary64.emax;
  fmul := SpecFloat.SFmul Binary64.prec Binary64.emax;
  fdiv := SpecFloat.SFdiv Binary64.prec Binary64.emax;
  feqb := SpecFloat.SFeqb;
  fltb := SpecFloat.SFltb;
  fleb := SpecFloat.SFleb
|}.

(* ================================================================== *)
(** * The node *)

Unset Elimination Schemes.
Inductive Cobweb : Type :=
  Node (concept_id : nat) (count : Z) (av_counts : av_dict)
       (children : list Cobweb).
Set Elimination Schemes.

Definition concept_id (n : Cobweb) : nat :=
  match n with Node i _ _ _ => i end.
Definition count (n : Cobweb) : Z :=
  match n with Node _ c _ _ => c end.
Definition av_counts (n : Cobweb) : av_dict :=
  match n with Node _ _ av _ => av end.
Definition children (n : Cobweb) : list Cobweb :=
  match n with Node _ _ _ cs => cs end.

Definition set_count (n : Cobweb) (c : Z) : Cobweb :=
  Node (concept_id n) c (av_counts n) (children n).
Definition set_av_counts (n : Cobweb) (av : av_dict) : Cobweb :=
  Node (concept_id n) (count n) av (children n).
Definition set_children (n : Cobweb) (cs : list Cobweb) : Cobweb :=
  Node (concept_id n) (count n) (av_counts n) cs.

(** [self.children.append(c)] *)
Definition append_child (n c : Cobweb) : Cobweb :=
  set_children n (children n ++ [c]).

(** Object identity: [a == b] on two nodes ([__eq__] is not overridden). *)
Definition same_node (a b : Cobweb) : bool :=
  Nat.eqb (concept_id a) (concept_id b).

(** [concept_name = "Concept" + str(counter)] *)
Fixpoint digits (fuel n : nat) (acc : string) : string :=
  match fuel with
  | O => acc
  | S fuel' =>
      let acc' := String (ascii_of_nat (48 + Nat.modulo n 10)) acc in
      if Nat.ltb n 10 then acc' else digits fuel' (Nat.div n 10) acc'
  end.
Definition str_of_nat (n : nat) : string := digits (S n) n EmptyString.
Definition concept_name (n : Cobweb) : string :=
  ("Concept" ++ str_of_nat (concept_id n))%string.

(** [gensym]: increments the class counter and returns it. *)
Definition gensym : M nat := fun k => Ok (S k, S k).

(** [av_counts[attr][val]] with the default of [.get(val, 0)]. *)
Definition av_get (av : av_dict) (attr : string) (val : value) : Z :=
  match dict_get String.eqb av attr with
  | Some vals =>
      match dict_get value_eqb vals val with
      | Some c => c
      | None => 0
      end
  | None => 0
  end.

(** [av[attr] = av.setdefault(attr, {}); av[attr][val] = c] *)
Definition av_set (av : av_dict) (attr : string) (val : value) (c : Z)
  : av_dict :=
  let vals :=
    match dict_get String.eqb av attr with
    | Some vals => vals
    | None => []
    end in
  dict_set String.eqb av attr (dict_set value_eqb vals val c).

(** [increment_counts] *)
Definition increment_counts (self : Cobweb) (instance : Instance) : Cobweb :=
  let self := set_count self (count self + 1) in
  fold_left
    (fun self '(attr, val) =>
       set_av_counts self
         (av_set (av_counts self) attr val
                 (av_get (av_counts self) attr val + 1)))
    instance self.

(** [update_counts_from_node] *)
Definition update_counts_from_node (self node : Cobweb) : Cobweb :=
  let self := set_count self (count self + count node) in
  fold_left
    (fun self '(attr, vals) =>
       fold_left
         (fun self '(val, c) =>
            set_av_counts self
              (av_set (av_counts self) attr val
                      (av_get (av_counts self) attr val + c)))
         vals self)
    (av_counts node) self.

(** [Cobweb()] *)
Definition init : M Cobweb :=
  name <- gensym ;;
  ret (Node name 0 [] []).

(** [Cobweb(otherTree)]: the copy constructor. *)
Fixpoint init_copy (otherTree : Cobweb) : M Cobweb :=
  name <- gensym ;;
  let self := Node name 0 [] [] in
  let self := update_counts_from_node self otherTree in
  (fix copy_children (cs : list Cobweb) (self : Cobweb) : M Cobweb :=
     match cs with
     | [] => ret self
     | child :: cs' =>
         c <- init_copy child ;;
         copy_children cs' (append_child self c)
     end) (children otherTree) self.

(** [shallow_copy] *)
Definition shallow_copy (self : Cobweb) : M Cobweb :=
  temp <- init ;;
  let temp := update_counts_from_node temp self in
  for_each (children self)
    (fun temp child =>
       temp_child <- init ;;
       let temp_child := update_counts_from_node temp_child child in
       ret (append_child temp temp_child))
    temp.

(** [num_concepts] *)
Fixpoint num_concepts (self : Cobweb) : nat :=
  match self with
  | Node _ _ _ cs => 1 + list_sum (map num_concepts cs)
  end.

(* ================================================================== *)
(** * Category utility *)

Section Utility.
Context {F : Type} {FO : FloatOps F}.

(** [x / y] on floats. *)
Definition float_div (x y : F) : M F :=
  if feqb y f0 then raise ZeroDivisionError else ret (fdiv x y).

(** [expected_correct_guesses] *)
Definition expected_correct_guesses (self : Cobweb) : M F :=
  for_each (av_counts self)
    (fun correct_guesses '(attr, vals) =>
       for_each vals
         (fun correct_guesses '(val, c) =>
            prob <- float_div (of_int c) (fmul f1 (of_int (count self))) ;;
            ret (fadd correct_guesses (fmul prob prob)))
         correct_guesses)
    f0.

(** [category_utility] *)
Definition category_utility (self : Cobweb) : M F :=
  if Nat.eqb (List.length (children self)) 0 then ret f0
  else
    category_utility <-
      for_each (children self)
        (fun category_utility child =>
           p_of_child <- float_div (of_int (count child))
                                   (fmul f1 (of_int (count self))) ;;
           ecg_child <- expected_correct_guesses child ;;
           ecg_self <- expected_correct_guesses self ;;
           ret (fadd category_utility
                     (fmul p_of_child (fsub ecg_child ecg_self))))
        f0 ;;
    float_div category_utility
              (fmul f1 (of_int (Z.of_nat (List.length (children self))))).

(** [get_probability] *)
Definition get_probability (self : Cobweb) (attr : string) (val : value)
  : M F :=
  match dict_get String.eqb (av_counts self) attr with
  | None => ret f0
  | Some vals =>
      match dict_get value_eqb vals val with
      | None => ret f0
      | Some c => float_div (fmul f1 (of_int c)) (of_int (count self))
      end
  end.
End Utility.

(* ================================================================== *)
(** * verify_counts *)

(** [assert b] *)
Definition py_assert (b : bool) : M unit :=
  if b then ret tt else raise AssertionError.

(** [temp[attr][val]], for keys the caller has checked. *)
Definition temp_get (temp : av_dict) (attr : string) (val : value) : Z :=
  av_get temp attr val.

(** [verify_counts]: the debugging check of the source.  [temp] starts as
    a copy of the node's counts, the children's counts are taken off it,
    and what is left must be zero. *)
Fixpoint verify_counts (self : Cobweb) : M unit :=
  if Nat.eqb (List.length (children self)) 0 then ret tt
  else
    let temp : av_dict :=
      fold_left
        (fun temp '(attr, vals) =>
           let temp :=
             if dict_mem String.eqb temp attr then temp
             else dict_set String.eqb temp attr [] in
           fold_left (fun temp '(val, c) => av_set temp attr val c) vals temp)
        (av_counts self) [] in
    let temp_count := count self in
    '(temp, temp_count) <-
      for_each (children self)
        (fun '(temp, temp_count) child =>
           let temp_count := temp_count - count child in
           temp <-
             for_each (av_counts child)
               (fun temp '(attr, vals) =>
                  _ <- py_assert (dict_mem String.eqb temp attr) ;;
                  for_each vals
                    (fun temp '(val, c) =>
                       let present :=
                         match dict_get String.eqb temp attr with
                         | Some tv => dict_mem value_eqb tv val
                         | None => false
                         end in
                       _ <- (if present then ret tt
                             else
                               (* print(val.concept_name) *)
                               match val with
                               | VConcept _ => ret tt
                               | _ => raise AttributeError
                               end) ;;
                       _ <- py_assert present ;;
                       ret (av_set temp attr val (temp_get temp attr val - c)))
                    temp)
               temp ;;
           ret (temp, temp_count))
        (temp, temp_count) ;;
    _ <- py_assert (Z.eqb temp_count 0) ;;
    _ <- for_each temp
           (fun _ '(attr, vals) =>
              for_each vals
                (fun _ '(val, c) => py_assert (Z.eqb c 0))
                tt)
           tt ;;
    (fix verify_children (cs : list Cobweb) : M unit :=
       match cs with
       | [] => ret tt
       | child :: cs' => _ <- verify_counts child ;; verify_children cs'
       end) (children self).

(* ================================================================== *)
(** * list.sort and list.remove *)

Section Sort.
Variable A : Type.
Variable lt : A -> A -> bool.

(** Insertion into a sorted prefix, after every element that is not
    greater (the place a stable sort gives the element). *)
Fixpoint insert_sorted (x : A) (l : list A) : list A :=
  match l with
  | [] => [x]
  | y :: l' => if lt x y then x :: y :: l' else y :: insert_sorted x l'
  end.

(** [l.sort()]: stable, ascending, comparing with [<] only. *)
Definition sort (l : list A) : list A :=
  fold_left (fun acc x => insert_sorted x acc) l [].

(** [l.sort(reverse=True)]: the list is reversed, sorted and reversed
    again, which keeps equal elements in their original order. *)
Definition sort_reverse (l : list A) : list A := rev (sort (rev l)).
End Sort.

(** [l.remove(x)] on a list of nodes: the first element that is [x]. *)
Fixpoint list_remove (l : list Cobweb) (x : Cobweb) : M (list Cobweb) :=
  match l with
  | [] => raise ValueError
  | y :: l' =>
      if same_node y x then ret l'
      else (r <- list_remove l' x ;; ret (y :: r))
  end.

(** [s in l] on a list of strings. *)
Definition str_in (s : string) (l : list string) : bool :=
  existsb (String.eqb s) l.

(* ================================================================== *)
(** * Tree edits and their evaluators *)

(** [create_new_child]: returns the updated [self] and the new child. *)
Definition create_new_child (self : Cobweb) (instance : Instance)
  : M (Cobweb * Cobweb) :=
  new_child <- init ;;
  let new_child := increment_counts new_child instance in
  ret (append_child self new_child, new_child).

(** [create_child_with_current_counts]: returns [None] when [count <= 0]. *)
Definition create_child_with_current_counts (self : Cobweb)
  : M (Cobweb * option Cobweb) :=
  if count self >? 0 then
    new <- init_copy self ;;
    ret (append_child self new, Some new)
  else ret (self, None).

(** [merge]: returns the updated [self] and the merged child. *)
Definition merge (self best1 best2 : Cobweb) : M (Cobweb * Cobweb) :=
  new_child <- init ;;
  let new_child := update_counts_from_node new_child best1 in
  let new_child := update_counts_from_node new_child best2 in
  let new_child := append_child new_child best1 in
  let new_child := append_child new_child best2 in
  cs <- list_remove (children self) best1 ;;
  cs <- list_remove cs best2 ;;
  ret (set_children self (cs ++ [new_child]), new_child).

(** [split] *)
Definition split (self best : Cobweb) : M Cobweb :=
  cs <- list_remove (children self) best ;;
  ret (fold_left append_child (children best) (set_children self cs)).

Section Operations.
Context {F : Type} {FO : FloatOps F}.

(** [Cobweb.min_cu], a class variable the source sets to [0.0] and never
    assigns. *)
Variable min_cu : F.

(** [cu_for_insert].  The source appends [temp_child] and then increments
    it through the shared reference; here it is incremented first. *)
Definition cu_for_insert (self child : Cobweb) (instance : Instance) : M F :=
  temp <- init ;;
  let temp := update_counts_from_node temp self in
  let temp := increment_counts temp instance in
  temp <- for_each (children self)
            (fun temp c =>
               temp_child <- init ;;
               let temp_child := update_counts_from_node temp_child c in
               let temp_child :=
                 if same_node c child
                 then increment_counts temp_child instance
                 else temp_child in
               ret (append_child temp temp_child))
            temp ;;
  category_utility temp.

(** [two_best_children] *)
Definition two_best_children (self : Cobweb) (instance : Instance)
  : M ((F * Cobweb) * option (F * Cobweb)) :=
  if Nat.eqb (List.length (children self)) 0
  then raise (Exception "No children!")
  else
    children_cu <-
      map_m (fun child =>
               cu <- cu_for_insert self child instance ;;
               ret (cu, child))
            (children self) ;;
    let children_cu :=
      sort_reverse (fun x y => fltb (fst x) (fst y)) children_cu in
    match children_cu with
    | [] => raise IndexError
    | [x] => ret (x, None)
    | x :: y :: _ => ret (x, Some y)
    end.

(** [cu_for_new_child] *)
Definition cu_for_new_child (self : Cobweb) (instance : Instance) : M F :=
  temp <- shallow_copy self ;;
  let temp := increment_counts temp instance in
  '(temp, _) <- create_new_child temp instance ;;
  category_utility temp.

(** [cu_for_merge] *)
Definition cu_for_merge (self best1 best2 : Cobweb) (instance : Instance)
  : M F :=
  temp <- init ;;
  let temp := update_counts_from_node temp self in
  let temp := increment_counts temp instance in
  new_child <- init ;;
  let new_child := update_counts_from_node new_child best1 in
  let new_child := update_counts_from_node new_child best2 in
  let new_child := increment_counts new_child instance in
  let temp := append_child temp new_child in
  temp <- for_each (children self)
            (fun temp c =>
               if same_node c best1 || same_node c best2 then ret temp
               else
                 temp_child <- init ;;
                 let temp_child := update_counts_from_node temp_child c in
                 ret (append_child temp temp_child))
            temp ;;
  category_utility temp.

(** [cu_for_fringe_split] *)
Definition cu_for_fringe_split (self : Cobweb) (instance : Instance) : M F :=
  temp <- init ;;
  let temp := update_counts_from_node temp self in
  '(temp, _) <- create_child_with_current_counts temp ;;
  let temp := increment_counts temp instance in
  '(temp, _) <- create_new_child temp instance ;;
  category_utility temp.

(** [cu_for_split] *)
Definition cu_for_split (self best : Cobweb) : M F :=
  temp <- init ;;
  let temp := update_counts_from_node temp self in
  temp <- for_each (children self ++ children best)
            (fun temp c =>
               if same_node c best then ret temp
               else
                 temp_child <- init ;;
                 let temp_child := update_counts_from_node temp_child c in
                 ret (append_child temp temp_child))
            temp ;;
  category_utility temp.

(** [(cu1, name1) < (cu2, name2)] on tuples: the first component that
    differs decides. *)
Definition op_lt (x y : F * string) : bool :=
  if feqb (fst x) (fst y) then String.ltb (snd x) (snd y)
  else fltb (fst x) (fst y).

Definition default_ops : list string := ["best"; "new"; "merge"; "split"]%string.

(** The list [operations] that [get_best_operation] builds. *)
Definition candidate_operations (self : Cobweb) (instance : Instance)
           (best1 : F * Cobweb) (best2 : option (F * Cobweb))
           (possible_ops : list string) : M (list (F * string)) :=
  let '(best1_cu, best1) := best1 in
  let operations : list (F * string) := [] in
  let operations :=
    if str_in "best" possible_ops
    then operations ++ [(best1_cu, "best"%string)] else operations in
  operations <-
    (if str_in "new" possible_ops
     then cu <- cu_for_new_child self instance ;;
          ret (operations ++ [(cu, "new"%string)])
     else ret operations) ;;
  operations <-
    (match best2 with
     | Some (best2_cu, best2) =>
         if str_in "merge" possible_ops
            && Nat.ltb 2 (List.length (children self))
         then cu <- cu_for_merge self best1 best2 instance ;;
              ret (operations ++ [(cu, "merge"%string)])
         else ret operations
     | None => ret operations
     end) ;;
  if str_in "split" possible_ops
     && Nat.ltb 0 (List.length (children best1))
  then cu <- cu_for_split self best1 ;;
       ret (operations ++ [(cu, "split"%string)])
  else ret operations.

(** [get_best_operation]: sorts [operations] and returns its head. *)
Definition get_best_operation (self : Cobweb) (instance : Instance)
           (best1 : F * Cobweb) (best2 : option (F * Cobweb))
           (possible_ops : list string) : M (F * string) :=
  operations <-
    candidate_operations self instance best1 best2 possible_ops ;;
  match sort_reverse op_lt operations with
  | [] => raise IndexError
  | best :: _ => ret best
  end.

(** A child of [self] was mutated in place: the tree-shaped value of
    [self] shows the child's new state. *)
Definition replace_child (self old new : Cobweb) : Cobweb :=
  set_children self
    (map (fun c => if same_node c old then new else c) (children self)).

(** [instance[attr] == current] *)
Definition value_is_node (v : value) (n : Cobweb) : bool :=
  match v with
  | VConcept name => Nat.eqb name (concept_id n)
  | _ => false
  end.

(** The [while current:] loop of [cobweb], one iteration per unit of
    fuel.  Returns the new state of [current] and the node the source
    returns. *)
Fixpoint cobweb_loop (fuel : nat) (current : Cobweb) (instance : Instance)
  : M (Cobweb * Cobweb) :=
  match fuel with
  | O => out_of_fuel
  | S fuel =>
      match children current with
      | [] =>
          cu <- cu_for_fringe_split current instance ;;
          if fleb cu min_cu then
            let current := increment_counts current instance in
            ret (current, current)
          else
            '(current, new) <- create_child_with_current_counts current ;;
            let instance :=
              map (fun '(attr, val) =>
                     (attr,
                      if value_is_node val current then
                        match new with
                        | Some n => VConcept (concept_id n)
                        | None => VNone
                        end
                      else val))
                  instance in
            let current := increment_counts current instance in
            create_new_child current instance
      | _ :: _ =>
          '(best1, best2) <- two_best_children current instance ;;
          '(action_cu, best_action) <-
            get_best_operation current instance best1 best2 default_ops ;;
          let '(best1_cu, best1) := best1 in
          if fleb action_cu min_cu then
            let current := increment_counts current instance in
            let current := set_children current [] in
            ret (current, current)
          else if String.eqb best_action "best" then
            let current := increment_counts current instance in
            '(best1', leaf) <- cobweb_loop fuel best1 instance ;;
            ret (replace_child current best1 best1', leaf)
          else if String.eqb best_action "new" then
            let current := increment_counts current instance in
            create_new_child current instance
          else if String.eqb best_action "merge" then
            let current := increment_counts current instance in
            match best2 with
            | None => raise AttributeError
            | Some (best2_cu, best2) =>
                '(current, new_child) <- merge current best1 best2 ;;
                '(new_child', leaf) <- cobweb_loop fuel new_child instance ;;
                ret (replace_child current new_child new_child', leaf)
            end
          else if String.eqb best_action "split" then
            current <- split current best1 ;;
            cobweb_loop fuel current instance
          else raise (Exception "Should never get here.")
      end
  end.

(** [cobweb]: the loop runs until it returns; every iteration shrinks the
    subtree under [current], so [num_concepts self] iterations are
    enough (see [cobweb_loop_fuel]). *)
Definition cobweb (self : Cobweb) (instance : Instance)
  : M (Cobweb * Cobweb) :=
  cobweb_loop (num_concepts self) self instance.

(** [ifit] *)
Definition ifit (self : Cobweb) (instance : Instance)
  : M (Cobweb * Cobweb) :=
  cobweb self instance.

(** [fit]: returns the state of [self] after the calls. *)
Definition fit (self : Cobweb) (list_of_instances : list Instance)
  : M Cobweb :=
  for_each list_of_instances
    (fun self instance => '(self, _) <- ifit self instance ;; ret self)
    self.


End Operations.

(* ================================================================== *)
(** * Laws of the arithmetic

    What the proofs use of the float operations.  Exact rationals satisfy
    them ([Q_FloatLaws]); binary64 does on finite values. *)

Class FloatLaws (F : Type) {FO : FloatOps F} : Prop := {
  of_int_nonzero : forall c, c <> 0 -> feqb (of_int c) f0 = false;
  one_mul_nonzero : forall c, c <> 0 -> feqb (fmul f1 (of_int c)) f0 = false;
  fsub_diag : forall x, feqb (fsub x x) f0 = true;
  fmul_zero_r : forall x z, feqb z f0 = true -> feqb (fmul x z) f0 = true;
  fadd_zero : forall z, feqb z f0 = true -> feqb (fadd f0 z) f0 = true;
  fdiv_zero_l : forall z d, feqb z f0 = true -> feqb (fdiv z d) f0 = true;
  fleb_zero : forall z m,
      feqb z f0 = true -> fleb f0 m = true -> fleb z m = true;
  feqb_refl : forall x, feqb x x = true;
  feqb_sym : forall x y, feqb x y = true -> feqb y x = true;
  feqb_trans : forall x y z,
      feqb x y = true -> feqb y z = true -> feqb x z = true;
  feqb_not_lt : forall x y, feqb x y = true -> fltb x y = false;
  fltb_feqb_l : forall x y z, feqb x y = true -> fltb x z = fltb y z;
  fltb_feqb_r : forall x y z, feqb x y = true -> fltb z x = fltb z y;
  fltb_asym : forall x y, fltb x y = true -> fltb y x = false;
  fltb_negtrans : forall x y z,
      fltb y x = false -> fltb z y = false -> fltb z x = false;
  fltb_total : forall x y,
      feqb x y = false -> fltb x y = false -> fltb y x = true;
  fleb_not_gt : forall x y, fltb x y = false -> fleb y x = true
}.

Arguments FloatLaws F {FO}.

(* ================================================================== *)
(** * Predicates on trees *)

Fixpoint all_list {A} (P : A -> Prop) (l : list A) : Prop :=
  match l with
  | [] => True
  | x :: l' => P x /\ all_list P l'
  end.

(** [P] holds at every node of the tree. *)
Fixpoint tree_all (P : Cobweb -> Prop) (t : Cobweb) : Prop :=
  match t with
  | Node _ _ _ cs => P t /\ all_list (tree_all P) cs
  end.

(** The nodes of a tree, root first. *)
Fixpoint nodes (t : Cobweb) : list Cobweb :=
  match t with
  | Node _ _ _ cs => t :: flat_map nodes cs
  end.

(** The identities of the objects of a tree. *)
Definition ids (t : Cobweb) : list nat := map concept_id (nodes t).

Definition zsum (l : list Z) : Z := fold_right Z.add 0 l.

(** [node.count == sum(child.count for child in node.children)] *)
Definition count_conserved_at (n : Cobweb) : Prop :=
  children n = [] \/ count n = zsum (map count (children n)).

(** The same for every attribute/value pair, an absent pair counting 0. *)
Definition av_conserved_at (n : Cobweb) : Prop :=
  children n = [] \/
  forall attr val,
    av_get (av_counts n) attr val
    = zsum (map (fun c => av_get (av_counts c) attr val) (children n)).


(** Every child has absorbed at least one instance. *)
Definition pos_children (n : Cobweb) : Prop :=
  Forall (fun c => 1 <= count c) (children n).

(** A node with children has at least two. *)
Definition two_kids (n : Cobweb) : Prop :=
  children n = [] \/ (2 <= List.length (children n))%nat.

(** A dictionary built by the source has each key once. *)
Definition av_wf (av : av_dict) : Prop :=
  NoDup (dict_keys av) /\
  Forall (fun e : string * val_counts => NoDup (dict_keys (snd e))) av.

(** No value of the instance is a concept. *)
Definition plain_value (v : value) : Prop :=
  match v with VConcept _ => False | _ => True end.
Definition plain_instance (i : Instance) : Prop :=
  Forall (fun e : string * value => plain_value (snd e)) i.

(** How many times [increment_counts] meets the pair in the instance. *)
Fixpoint inst_count (i : Instance) (attr : string) (val : value) : Z :=
  match i with
  | [] => 0
  | (a, v) :: i' =>
      (if String.eqb a attr && value_eqb v val then 1 else 0)
      + inst_count i' attr val
  end.

(** The sum of the entries of a value dictionary under one key. *)
Fixpoint vals_total (vals : val_counts) (val : value) : Z :=
  match vals with
  | [] => 0
  | (v, c) :: vals' =>
      (if value_eqb v val then c else 0) + vals_total vals' val
  end.

Fixpoint av_total (av : av_dict) (attr : string) (val : value) : Z :=
  match av with
  | [] => 0
  | (a, vals) :: av' =>
      (if String.eqb a attr then vals_total vals val else 0)
      + av_total av' attr val
  end.

(** Total correctness of a computation from counter [k]. *)
Definition wp {A} (m : M A) (k : nat) (Q : A -> nat -> Prop) : Prop :=
  match m k with
  | Ok (a, k') => Q a k'
  | _ => False
  end.

(** Two runs, from two counters, end the same way with related results. *)
Definition rel2 {A} (R : A -> A -> Prop) (m1 m2 : M A) (k1 k2 : nat) : Prop :=
  match m1 k1, m2 k2 with
  | Ok (a, _), Ok (b, _) => R a b
  | Raise e1, Raise e2 => e1 = e2
  | OutOfFuel, OutOfFuel => True
  | _, _ => False
  end.

(** Two nodes with the same statistics, and so their children, whatever
    their identities. *)
Definition same_counts (a b : Cobweb) : Prop :=
  count a = count b /\ av_counts a = av_counts b.
Definition same_stats (a b : Cobweb) : Prop :=
  same_counts a b /\ Forall2 same_counts (children a) (children b).

(* ================================================================== *)
(** * The formulas of the specification, over the rationals *)





(* ================================================================== *)
(** * The dictionary updates of the counting methods, on their own *)

(** The [av_counts] that [increment_counts] leaves. *)
Definition av_incr (av : av_dict) (instance : Instance) : av_dict :=
  fold_left
    (fun av (e : string * value) =>
       av_set av (fst e) (snd e) (av_get av (fst e) (snd e) + 1))
    instance av.

Definition av_add_vals (av : av_dict) (attr : string) (vals : val_counts)
  : av_dict :=
  fold_left
    (fun av (p : value * Z) =>
       av_set av attr (fst p) (av_get av attr (fst p) + snd p))
    vals av.

(** The [av_counts] that [update_counts_from_node] leaves. *)
Definition av_update (av other : av_dict) : av_dict :=
  fold_left
    (fun av (e : string * val_counts) => av_add_vals av (fst e) (snd e))
    other av.

(** A computation that neither reads nor moves the counter. *)
Definition lift_outcome {A} (o : outcome A) : M A :=
  fun k =>
    match o with
    | Ok a => Ok (a, k)
    | Raise e => Raise e
    | OutOfFuel => OutOfFuel
    end.

Definition counter_free {A} (m : M A) : Prop :=
  exists o : outcome A, forall k, m k = lift_outcome o k.


(* ================================================================== *)
(** * The invariant of the tree and the contract of the loop *)

(** What every node keeps, whatever the instances hold. *)
Definition node_struct (n : Cobweb) : Prop :=
  count_conserved_at n /\ pos_children n.

(** What every node keeps under instances of plain values. *)
Definition av_ok (n : Cobweb) : Prop :=
  av_wf (av_counts n) /\ av_conserved_at n.

(** The tree under [t] when the class counter is [k]: counts are
    conserved, every child has absorbed an instance, identities are
    distinct and were drawn from the counter, and a node that absorbed
    nothing has no statistics. *)
Definition tree_struct (k : nat) (t : Cobweb) : Prop :=
  0 <= count t /\
  (count t = 0 -> av_counts t = []) /\
  tree_all node_struct t /\
  NoDup (ids t) /\
  Forall (fun i => (i <= k)%nat) (ids t).

(** What one run of the loop of [cobweb] from [current] guarantees of the
    new state [fst r] of [current] and of the returned node [snd r]. *)
Definition loop_post {F} {FO : FloatOps F} (min_cu : F) (instance : Instance)
           (current : Cobweb) (k : nat) (r : Cobweb * Cobweb) (k' : nat)
  : Prop :=
  (k <= k')%nat /\
  concept_id (fst r) = concept_id current /\
  count (fst r) = count current + 1 /\
  tree_all node_struct (fst r) /\
  NoDup (ids (fst r)) /\
  (forall i, In i (ids (fst r)) ->
             In i (ids current) \/ (k < i <= k')%nat) /\
  children (snd r) = [] /\
  In (snd r) (nodes (fst r)) /\
  (fleb f0 min_cu = true ->
   tree_all two_kids current -> tree_all two_kids (fst r)) /\
  (plain_instance instance ->
   tree_all av_ok current ->
   tree_all av_ok (fst r) /\
   forall attr val,
     av_get (av_counts (fst r)) attr val
     = av_get (av_counts current) attr val + inst_count instance attr val).

(** A parent that has absorbed the instance while one of its children has
    not yet. *)
Definition open_struct (k : nat) (p : Cobweb) : Prop :=
  count p = zsum (map count (children p)) + 1 /\
  pos_children p /\
  Forall (tree_all node_struct) (children p) /\
  NoDup (ids p) /\
  Forall (fun i => (i <= k)%nat) (ids p).

Definition open_av (instance : Instance) (p : Cobweb) : Prop :=
  av_wf (av_counts p) /\
  (forall attr val,
      av_get (av_counts p) attr val
      = zsum (map (fun c => av_get (av_counts c) attr val) (children p))
        + inst_count instance attr val) /\
  Forall (tree_all av_ok) (children p).

(* ================================================================== *)
(** * Sessions used as examples *)

Module Examples.
Definition red : Instance := [("color"%string, VStr "red")].
Definition blue : Instance := [("color"%string, VStr "blue")].

(** [t = Cobweb(); t.ifit(red); t.ifit(red); t.ifit(blue)] *)
Definition red_red_blue {F} {FO : FloatOps F} : M Cobweb :=
  t <- init ;;
  fit f0 t [red; red; blue].

(** The tree that [red_red_blue] builds when the counter starts at 0. *)
Definition red_red_blue_tree : Cobweb :=
  Node 1 3 [("color"%string, [(VStr "red", 2); (VStr "blue", 1)])]
       [Node 10 2 [("color"%string, [(VStr "red", 2)])] [];
        Node 11 1 [("color"%string, [(VStr "blue", 1)])] []].


(** A node whose two children hold the same single instance. *)
Definition twins : Cobweb :=
  Node 1 2 [("color"%string, [(VStr "red", 2)])]
       [Node 2 1 [("color"%string, [(VStr "red", 1)])] [];
        Node 3 1 [("color"%string, [(VStr "red", 1)])] []].

End Examples.

Module TieExample.
(** The tree that [ifit] of [{"a": "y", "b": "q"}], [{"a": "y"}],
    [{"a": "x"}] and [{"a": "x"}] builds from a fresh tree (see
    [tie_tree_reached]). *)
Definition tie_tree : Cobweb :=
  Node 1 4
       [("a"%string, [(VStr "y", 2); (VStr "x", 2)]);
        ("b"%string, [(VStr "q", 1)])]
       [Node 7 1 [("a"%string, [(VStr "y", 1)]);
                  ("b"%string, [(VStr "q", 1)])] [];
        Node 8 1 [("a"%string, [(VStr "y", 1)])] [];
        Node 19 2 [("a"%string, [(VStr "x", 2)])] []].

End TieExample.

(* ================================================================== *)
(** * Proof steps used throughout *)

(** Splits the conjunctions the goal shows, and no definition. *)
Ltac split_and := repeat match goal with |- _ /\ _ => split end.

(** Evaluates the comparisons of operation names. *)
Ltac eval_string_eqb :=
  repeat match goal with
         | |- context [String.eqb ?a ?b] =>
             let v := eval vm_compute in (String.eqb a b) in
             change (String.eqb a b) with v
         end;
  cbv iota.

Unset Implicit Arguments.

(* ================================================================== *)
(** * Induction on trees *)

Lemma all_list_Forall {A} (P : A -> Prop) (l : list A) :
  all_list P l <-> Forall P l.
Proof.
  induction l as [|x l IH]; simpl.
  - split; auto.
  - rewrite IH. split.
    + intros [H1 H2]. now constructor.
    + intros H. inversion H; auto.
Qed.

Lemma Cobweb_ind (P : Cobweb -> Prop) :
  (forall i c av cs, Forall P cs -> P (Node i c av cs)) ->
  forall t, P t.
Proof.
  intros step.
  fix IH 1.
  intros [i c av cs]. apply step.
  induction cs as [|x cs IHcs]; constructor.
  - apply IH.
  - exact IHcs.
Qed.

Lemma tree_all_unfold (P : Cobweb -> Prop) (t : Cobweb) :
  tree_all P t <-> P t /\ Forall (tree_all P) (children t).
Proof.
  destruct t as [i c av cs]. simpl. now rewrite all_list_Forall.
Qed.

Lemma tree_all_root (P : Cobweb -> Prop) t : tree_all P t -> P t.
Proof. rewrite tree_all_unfold. tauto. Qed.

Lemma tree_all_children (P : Cobweb -> Prop) t :
  tree_all P t -> Forall (tree_all P) (children t).
Proof. rewrite tree_all_unfold. tauto. Qed.

Lemma tree_all_leaf (P : Cobweb -> Prop) t :
  children t = [] -> P t -> tree_all P t.
Proof.
  intros Hc Hp. rewrite tree_all_unfold, Hc. split; [assumption|constructor].
Qed.


Lemma tree_all_nodes (P : Cobweb -> Prop) t :
  tree_all P t <-> Forall P (nodes t).
Proof.
  induction t as [i c av cs IH] using Cobweb_ind.
  rewrite tree_all_unfold. simpl.
  assert (H : Forall (tree_all P) cs <-> Forall P (flat_map nodes cs)).
  { induction IH as [|x l Hx Hl IHl]; simpl.
    - split; constructor.
    - rewrite Forall_app, <- Hx, <- IHl. split.
      + intros H. inversion H; auto.
      + intros [H1 H2]. now constructor. }
  rewrite H. split.
  - intros [H1 H2]. now constructor.
  - intros H0. inversion H0; auto.
Qed.

Lemma nodes_self t : In t (nodes t).
Proof. destruct t; simpl; auto. Qed.

Lemma nodes_child t c n :
  In c (children t) -> In n (nodes c) -> In n (nodes t).
Proof.
  destruct t as [i k av cs]. simpl. intros Hc Hn. right.
  apply in_flat_map. eauto.
Qed.

(* ================================================================== *)
(** * Dictionaries *)

Section DictFacts.
Context {K V : Type} (eqb : K -> K -> bool).
Hypothesis eqb_eq : forall x y, eqb x y = true <-> x = y.

Lemma eqb_refl_of x : eqb x x = true.
Proof. now apply eqb_eq. Qed.

Lemma eqb_false_of x y : x <> y -> eqb x y = false.
Proof.
  intros H. destruct (eqb x y) eqn:E; [|reflexivity].
  apply eqb_eq in E. contradiction.
Qed.

Lemma dict_get_set_same (d : dict K V) k v :
  dict_get eqb (dict_set eqb d k v) k = Some v.
Proof.
  induction d as [|[k' v'] d IH]; simpl.
  - now rewrite eqb_refl_of.
  - destruct (eqb k' k) eqn:E; simpl; rewrite E; auto.
Qed.

Lemma dict_get_set_other (d : dict K V) k v k' :
  k <> k' -> dict_get eqb (dict_set eqb d k v) k' = dict_get eqb d k'.
Proof.
  intros Hne. induction d as [|[k0 v0] d IH]; simpl.
  - now rewrite eqb_false_of.
  - destruct (eqb k0 k) eqn:E; simpl.
    + apply eqb_eq in E. subst k0. now rewrite eqb_false_of.
    + now rewrite IH.
Qed.

Lemma dict_get_none_keys (d : dict K V) k :
  dict_get eqb d k = None <-> ~ In k (dict_keys d).
Proof.
  induction d as [|[k0 v0] d IH]; simpl.
  - tauto.
  - destruct (eqb k0 k) eqn:E.
    + apply eqb_eq in E. subst. split; [discriminate|intros H; exfalso; auto].
    + rewrite IH. split.
      * intros H [H1|H1]; [subst; rewrite eqb_refl_of in E; discriminate|auto].
      * intros H H1. auto.
Qed.

Lemma dict_keys_set (d : dict K V) k v :
  dict_keys (dict_set eqb d k v)
  = if dict_mem eqb d k then dict_keys d else dict_keys d ++ [k].
Proof.
  unfold dict_mem.
  induction d as [|[k0 v0] d IH]; simpl; [reflexivity|].
  destruct (eqb k0 k) eqn:E; simpl; [reflexivity|].
  rewrite IH. destruct (dict_get eqb d k); reflexivity.
Qed.

Lemma dict_set_NoDup (d : dict K V) k v :
  NoDup (dict_keys d) -> NoDup (dict_keys (dict_set eqb d k v)).
Proof.
  intros H. rewrite dict_keys_set. unfold dict_mem.
  destruct (dict_get eqb d k) eqn:E; [assumption|].
  apply dict_get_none_keys in E.
  apply NoDup_app; [assumption|repeat constructor; auto|].
  intros x Hx [Hk|[]]. subst. contradiction.
Qed.

Lemma dict_set_in (d : dict K V) k v e :
  In e (dict_set eqb d k v) -> e = (k, v) \/ In e d.
Proof.
  induction d as [|[k0 v0] d IH]; simpl.
  - intros [H|[]]; auto.
  - destruct (eqb k0 k) eqn:E; simpl.
    + apply eqb_eq in E. subst. intros [H|H]; auto.
    + intros [H|H]; auto. apply IH in H. tauto.
Qed.

Lemma dict_get_in (d : dict K V) k v :
  dict_get eqb d k = Some v -> In (k, v) d.
Proof.
  induction d as [|[k0 v0] d IH]; simpl; [discriminate|].
  destruct (eqb k0 k) eqn:E.
  - apply eqb_eq in E. subst. intros H. inversion H. auto.
  - auto.
Qed.
End DictFacts.

Lemma value_eqb_eq v w : value_eqb v w = true <-> v = w.
Proof.
  destruct v, w; simpl; try (split; [discriminate|congruence]).
  - rewrite String.eqb_eq. split; congruence.
  - rewrite Nat.eqb_eq. split; congruence.
  - tauto.
Qed.

Lemma value_eqb_refl v : value_eqb v v = true.
Proof. now apply value_eqb_eq. Qed.

(* ================================================================== *)
(** * The counting methods *)

Lemma increment_counts_eq n instance :
  increment_counts n instance
  = Node (concept_id n) (count n + 1) (av_incr (av_counts n) instance)
         (children n).
Proof.
  unfold increment_counts, av_incr.
  assert (H : forall m,
             fold_left
               (fun self '(attr, val) =>
                  set_av_counts self
                    (av_set (av_counts self) attr val
                            (av_get (av_counts self) attr val + 1)))
               instance m
             = Node (concept_id m) (count m)
                    (fold_left
                       (fun av (e : string * value) =>
                          av_set av (fst e) (snd e)
                                 (av_get av (fst e) (snd e) + 1))
                       instance (av_counts m)) (children m)).
  { induction instance as [|[a v] i IH]; intros m; simpl.
    - now destruct m.
    - rewrite IH. reflexivity. }
  rewrite H. reflexivity.
Qed.

Lemma update_counts_from_node_eq n node :
  update_counts_from_node n node
  = Node (concept_id n) (count n + count node)
         (av_update (av_counts n) (av_counts node)) (children n).
Proof.
  unfold update_counts_from_node, av_update.
  assert (Hin : forall attr vals m,
             fold_left
               (fun self '(val, c) =>
                  set_av_counts self
                    (av_set (av_counts self) attr val
                            (av_get (av_counts self) attr val + c)))
               vals m
             = Node (concept_id m) (count m)
                    (av_add_vals (av_counts m) attr vals) (children m)).
  { intros attr vals. unfold av_add_vals.
    induction vals as [|[v c] vals IH]; intros m; simpl.
    - now destruct m.
    - rewrite IH. reflexivity. }
  assert (H : forall m,
             fold_left
               (fun self '(attr, vals) =>
                  fold_left
                    (fun self '(val, c) =>
                       set_av_counts self
                         (av_set (av_counts self) attr val
                                 (av_get (av_counts self) attr val + c)))
                    vals self)
               (av_counts node) m
             = Node (concept_id m) (count m)
                    (fold_left
                       (fun av (e : string * val_counts) =>
                          av_add_vals av (fst e) (snd e))
                       (av_counts node) (av_counts m)) (children m)).
  { induction (av_counts node) as [|[a vals] av IH]; intros m; simpl.
    - now destruct m.
    - rewrite Hin, IH. reflexivity. }
  rewrite H. reflexivity.
Qed.

Lemma increment_counts_id n i :
  concept_id (increment_counts n i) = concept_id n.
Proof. now rewrite increment_counts_eq. Qed.

Lemma increment_counts_count n i :
  count (increment_counts n i) = count n + 1.
Proof. now rewrite increment_counts_eq. Qed.

Lemma increment_counts_children n i :
  children (increment_counts n i) = children n.
Proof. now rewrite increment_counts_eq. Qed.

Lemma increment_counts_av n i :
  av_counts (increment_counts n i) = av_incr (av_counts n) i.
Proof. now rewrite increment_counts_eq. Qed.

Lemma update_counts_id n m :
  concept_id (update_counts_from_node n m) = concept_id n.
Proof. now rewrite update_counts_from_node_eq. Qed.

Lemma update_counts_count n m :
  count (update_counts_from_node n m) = count n + count m.
Proof. now rewrite update_counts_from_node_eq. Qed.

Lemma update_counts_children n m :
  children (update_counts_from_node n m) = children n.
Proof. now rewrite update_counts_from_node_eq. Qed.

Lemma update_counts_av n m :
  av_counts (update_counts_from_node n m)
  = av_update (av_counts n) (av_counts m).
Proof. now rewrite update_counts_from_node_eq. Qed.

(* ================================================================== *)
(** * Lookups in [av_counts] *)

Lemma av_get_set av a v c a' v' :
  av_get (av_set av a v c) a' v'
  = if String.eqb a a' && value_eqb v v' then c else av_get av a' v'.
Proof.
  unfold av_get, av_set.
  destruct (String.eqb a a') eqn:Ea; simpl.
  - apply String.eqb_eq in Ea. subst a'.
    rewrite (dict_get_set_same String.eqb String.eqb_eq).
    destruct (value_eqb v v') eqn:Ev.
    + apply value_eqb_eq in Ev. subst v'.
      now rewrite (dict_get_set_same value_eqb value_eqb_eq).
    + rewrite (dict_get_set_other value_eqb value_eqb_eq).
      * destruct (dict_get String.eqb av a); reflexivity.
      * intros ->. now rewrite value_eqb_refl in Ev.
  - rewrite (dict_get_set_other String.eqb String.eqb_eq); [reflexivity|].
    intros ->. now rewrite String.eqb_refl in Ea.
Qed.

Lemma av_get_incr av instance a v :
  av_get (av_incr av instance) a v = av_get av a v + inst_count instance a v.
Proof.
  unfold av_incr. revert av.
  induction instance as [|[a0 v0] i IH]; intros av; simpl.
  - lia.
  - rewrite IH, av_get_set.
    destruct (String.eqb a0 a && value_eqb v0 v) eqn:E; [|lia].
    apply andb_true_iff in E. destruct E as [Ea Ev].
    apply String.eqb_eq in Ea. apply value_eqb_eq in Ev. subst. lia.
Qed.

Lemma av_get_add_vals av attr vals a v :
  av_get (av_add_vals av attr vals) a v
  = av_get av a v + (if String.eqb attr a then vals_total vals v else 0).
Proof.
  unfold av_add_vals. revert av.
  induction vals as [|[v0 c] vals IH]; intros av; simpl.
  - destruct (String.eqb attr a); lia.
  - rewrite IH, av_get_set.
    destruct (String.eqb attr a) eqn:Ea; simpl; [|lia].
    destruct (value_eqb v0 v) eqn:Ev; [|lia].
    apply String.eqb_eq in Ea. apply value_eqb_eq in Ev. subst. lia.
Qed.

Lemma av_get_update av other a v :
  av_get (av_update av other) a v = av_get av a v + av_total other a v.
Proof.
  unfold av_update. revert av.
  induction other as [|[a0 vals] other IH]; intros av; simpl.
  - lia.
  - rewrite IH, av_get_add_vals. lia.
Qed.

Lemma vals_total_absent vals v :
  ~ In v (dict_keys vals) -> vals_total vals v = 0.
Proof.
  induction vals as [|[v0 c] vals IH]; simpl; [reflexivity|].
  intros H. rewrite IH by tauto.
  destruct (value_eqb v0 v) eqn:E; [|reflexivity].
  apply value_eqb_eq in E. tauto.
Qed.

Lemma vals_total_get vals v :
  NoDup (dict_keys vals) ->
  vals_total vals v
  = match dict_get value_eqb vals v with Some c => c | None => 0 end.
Proof.
  induction vals as [|[v0 c] vals IH]; simpl; [reflexivity|].
  intros H. inversion H; subst.
  destruct (value_eqb v0 v) eqn:E.
  - apply value_eqb_eq in E. subst. rewrite vals_total_absent by assumption. lia.
  - rewrite IH by assumption. reflexivity.
Qed.

Lemma av_total_absent av a v :
  ~ In a (dict_keys av) -> av_total av a v = 0.
Proof.
  induction av as [|[a0 vals] av IH]; simpl; [reflexivity|].
  intros H. rewrite IH by tauto.
  destruct (String.eqb a0 a) eqn:E; [|reflexivity].
  apply String.eqb_eq in E. tauto.
Qed.

Lemma av_total_get av a v :
  av_wf av -> av_total av a v = av_get av a v.
Proof.
  unfold av_wf, av_get.
  induction av as [|[a0 vals] av IH]; simpl; [reflexivity|].
  intros [H1 H2]. inversion H1; inversion H2; subst. simpl in *.
  destruct (String.eqb a0 a) eqn:E.
  - apply String.eqb_eq in E. subst.
    rewrite av_total_absent by assumption.
    rewrite vals_total_get by assumption. lia.
  - rewrite IH by (split; assumption). reflexivity.
Qed.

(** Copying the counts of a node into a fresh one. *)
Lemma av_get_update_empty other a v :
  av_wf other -> av_get (av_update [] other) a v = av_get other a v.
Proof.
  intros H. rewrite av_get_update, av_total_get by assumption. reflexivity.
Qed.

(* ================================================================== *)
(** * Well-formed dictionaries *)

Lemma av_wf_nil : av_wf [].
Proof. split; constructor. Qed.

Lemma av_wf_set av a v c : av_wf av -> av_wf (av_set av a v c).
Proof.
  unfold av_wf, av_set. intros [H1 H2]. split.
  - now apply dict_set_NoDup; [apply String.eqb_eq|].
  - apply Forall_forall. intros e He.
    apply (dict_set_in String.eqb String.eqb_eq) in He.
    destruct He as [->|He].
    + simpl. apply dict_set_NoDup; [apply value_eqb_eq|].
      destruct (dict_get String.eqb av a) eqn:E; [|constructor].
      apply (dict_get_in String.eqb String.eqb_eq) in E.
      rewrite Forall_forall in H2. apply (H2 _ E).
    + rewrite Forall_forall in H2. now apply H2.
Qed.

Lemma av_wf_incr av i : av_wf av -> av_wf (av_incr av i).
Proof.
  unfold av_incr. revert av.
  induction i as [|[a v] i IH]; intros av H; simpl; [assumption|].
  apply IH. now apply av_wf_set.
Qed.

Lemma av_wf_add_vals av a vals : av_wf av -> av_wf (av_add_vals av a vals).
Proof.
  unfold av_add_vals. revert av.
  induction vals as [|[v c] vals IH]; intros av H; simpl; [assumption|].
  apply IH. now apply av_wf_set.
Qed.

Lemma av_wf_update av other : av_wf av -> av_wf (av_update av other).
Proof.
  unfold av_update. revert av.
  induction other as [|[a vals] other IH]; intros av H; simpl; [assumption|].
  apply IH. now apply av_wf_add_vals.
Qed.

(* ================================================================== *)
(** * Rules for [wp] *)

Lemma bind_ok {A B} (m : M A) (f : A -> M B) k a k' :
  m k = Ok (a, k') -> bind m f k = f a k'.
Proof. unfold bind. now intros ->. Qed.



Lemma wp_ret {A} (a : A) k (Q : A -> nat -> Prop) : Q a k -> wp (ret a) k Q.
Proof. intros H. exact H. Qed.

Lemma wp_bind {A B} (m : M A) (f : A -> M B) k (Q : B -> nat -> Prop) :
  wp m k (fun a k' => wp (f a) k' Q) -> wp (bind m f) k Q.
Proof.
  unfold wp, bind. destruct (m k) as [[a k']| |]; auto.
Qed.

Lemma wp_mono {A} (m : M A) k (Q Q' : A -> nat -> Prop) :
  wp m k Q -> (forall a k', Q a k' -> Q' a k') -> wp m k Q'.
Proof.
  unfold wp. destruct (m k) as [[a k']| |]; auto.
Qed.

Lemma wp_eq {A} (m : M A) k a k' :
  m k = Ok (a, k') -> forall Q : A -> nat -> Prop, Q a k' -> wp m k Q.
Proof. unfold wp. intros -> Q H. exact H. Qed.

Lemma wp_run {A} (m : M A) k (Q : A -> nat -> Prop) :
  wp m k Q -> exists a k', m k = Ok (a, k') /\ Q a k'.
Proof.
  unfold wp. destruct (m k) as [[a k']| |]; try tauto. eauto.
Qed.

Lemma wp_and {A} (m : M A) k (Q Q' : A -> nat -> Prop) :
  wp m k Q -> wp m k Q' -> wp m k (fun a k' => Q a k' /\ Q' a k').
Proof.
  unfold wp. destruct (m k) as [[a k']| |]; auto.
Qed.

Lemma wp_init k (Q : Cobweb -> nat -> Prop) :
  Q (Node (S k) 0 [] []) (S k) -> wp init k Q.
Proof. intros H. exact H. Qed.

Lemma wp_for_each {A S} (l : list A) (body : S -> A -> M S)
      (I : list A -> S -> nat -> Prop) s k :
  I [] s k ->
  (forall pre x post s k,
      l = pre ++ x :: post -> I pre s k ->
      wp (body s x) k (I (pre ++ [x]))) ->
  wp (for_each l body s) k (I l).
Proof.
  assert (H : forall post pre s k,
             l = pre ++ post -> I pre s k ->
             (forall pre x post s k,
                 l = pre ++ x :: post -> I pre s k ->
                 wp (body s x) k (I (pre ++ [x]))) ->
             wp (for_each post body s) k (I l)).
  { induction post as [|x post IH]; intros pre s0 k0 Hl HI Hstep; simpl.
    - rewrite app_nil_r in Hl. subst. exact HI.
    - apply wp_bind. eapply wp_mono; [eapply Hstep; eauto|].
      intros s1 k1 H1. apply (IH (pre ++ [x])); auto.
      rewrite <- app_assoc. exact Hl. }
  intros H0 Hstep. apply (H l []); auto.
Qed.

Lemma wp_map_m {A B} (f : A -> M B) (l : list A) (R : A -> B -> Prop) k :
  (forall x k, In x l -> wp (f x) k (fun y k' => R x y /\ (k <= k')%nat)) ->
  wp (map_m f l) k (fun ys k' => Forall2 R l ys /\ (k <= k')%nat).
Proof.
  revert k. induction l as [|x l IH]; intros k H; simpl.
  - apply wp_ret. split; [constructor|lia].
  - apply wp_bind. eapply wp_mono; [apply H; simpl; auto|].
    intros y k1 [Hy Hk1]. apply wp_bind.
    eapply wp_mono; [apply IH; intros; apply H; simpl; auto|].
    intros ys k2 [Hys Hk2]. apply wp_ret. split; [now constructor|lia].
Qed.

(* ================================================================== *)
(** * Computations that leave the counter alone *)

Lemma counter_free_ret {A} (a : A) : counter_free (ret a).
Proof. exists (Ok a). reflexivity. Qed.

Lemma counter_free_raise {A} e : counter_free (@raise A e).
Proof. exists (Raise e). reflexivity. Qed.

Lemma counter_free_bind {A B} (m : M A) (f : A -> M B) :
  counter_free m -> (forall a, counter_free (f a)) -> counter_free (bind m f).
Proof.
  intros [o Ho] Hf. destruct o as [a| e |].
  - destruct (Hf a) as [o' Ho']. exists o'. intros k.
    unfold bind. rewrite Ho. simpl. apply Ho'.
  - exists (Raise e). intros k. unfold bind. now rewrite Ho.
  - exists OutOfFuel. intros k. unfold bind. now rewrite Ho.
Qed.

Lemma counter_free_for_each {A S} (l : list A) (body : S -> A -> M S) s :
  (forall s x, counter_free (body s x)) -> counter_free (for_each l body s).
Proof.
  intros H. revert s. induction l as [|x l IH]; intros s; simpl.
  - apply counter_free_ret.
  - apply counter_free_bind; auto.
Qed.


Lemma counter_free_wp {A} (m : M A) k (Q : A -> nat -> Prop) :
  counter_free m -> wp m k Q -> wp m k (fun a k' => Q a k' /\ k' = k).
Proof.
  intros [o Ho]. unfold wp. rewrite Ho.
  destruct o; simpl; auto.
Qed.

Lemma counter_free_any {A} (m : M A) k1 k2 a k1' :
  counter_free m -> m k1 = Ok (a, k1') -> k1' = k1 /\ m k2 = Ok (a, k2).
Proof.
  intros [o Ho]. rewrite !Ho. destruct o; simpl; try discriminate.
  intros H. inversion H; subst. auto.
Qed.

(* ================================================================== *)
(** * Rules for [rel2] *)




Lemma rel2_mono {A} (R R' : A -> A -> Prop) (m1 m2 : M A) k1 k2 :
  rel2 R m1 m2 k1 k2 -> (forall a b, R a b -> R' a b) -> rel2 R' m1 m2 k1 k2.
Proof.
  unfold rel2. destruct (m1 k1) as [[a k1']| |], (m2 k2) as [[b k2']| |]; auto.
Qed.




(* ================================================================== *)
(** * Exact rationals satisfy the laws *)



(* ================================================================== *)
(** * Category utility reads counts only *)

Section UtilityFacts.
Context {F : Type} {FO : FloatOps F}.

Lemma counter_free_float_div (x y : F) : counter_free (float_div x y).
Proof.
  unfold float_div. destruct (feqb y f0).
  - apply counter_free_raise.
  - apply counter_free_ret.
Qed.

Lemma counter_free_ecg n : counter_free (expected_correct_guesses n).
Proof.
  unfold expected_correct_guesses.
  apply counter_free_for_each. intros s [a vals].
  apply counter_free_for_each. intros s' [v c].
  apply counter_free_bind; [apply counter_free_float_div|].
  intros. apply counter_free_ret.
Qed.


Lemma ecg_same_counts a b :
  same_counts a b -> expected_correct_guesses a = expected_correct_guesses b.
Proof.
  intros [Hc Ha]. unfold expected_correct_guesses. now rewrite Hc, Ha.
Qed.



(** ** No division by zero on nodes that have absorbed instances *)

Context {FL : FloatLaws F}.

Lemma wp_float_div_count (x : F) c k (Q : F -> nat -> Prop) :
  c <> 0 ->
  Q (fdiv x (fmul f1 (of_int c))) k ->
  wp (float_div x (fmul f1 (of_int c))) k Q.
Proof.
  intros Hc HQ. unfold wp, float_div.
  rewrite one_mul_nonzero by exact Hc. exact HQ.
Qed.

Lemma wp_ecg n k :
  count n <> 0 ->
  wp (expected_correct_guesses n) k (fun _ k' => k' = k).
Proof.
  intros Hc. unfold expected_correct_guesses.
  apply (wp_for_each _ _ (fun _ _ k' => k' = k)); [reflexivity|].
  intros pre [a vals] post s k0 _ ->.
  apply (wp_for_each _ _ (fun _ _ k' => k' = k)); [reflexivity|].
  intros pre' [v c] post' s' k1 _ ->.
  apply wp_bind. apply wp_float_div_count; [assumption|].
  apply wp_ret. reflexivity.
Qed.

Lemma wp_cu n k :
  count n <> 0 ->
  Forall (fun c => count c <> 0) (children n) ->
  wp (category_utility n) k (fun _ k' => k' = k).
Proof.
  intros Hc Hcs. unfold category_utility.
  destruct (Nat.eqb (List.length (children n)) 0) eqn:E.
  - apply wp_ret. reflexivity.
  - apply wp_bind.
    eapply wp_mono.
    + apply (wp_for_each _ _ (fun _ _ k' => k' = k)); [reflexivity|].
      intros pre c post s k0 Hl ->.
      assert (Hin : In c (children n)).
      { rewrite Hl. apply in_or_app. right. left. reflexivity. }
      rewrite Forall_forall in Hcs. specialize (Hcs c Hin).
      apply wp_bind. apply wp_float_div_count; [assumption|].
      apply wp_bind. eapply wp_mono; [apply wp_ecg; assumption|].
      intros e1 k1 ->.
      apply wp_bind. eapply wp_mono; [apply wp_ecg; assumption|].
      intros e2 k2 ->. apply wp_ret. reflexivity.
    + intros cu k' ->. simpl.
      apply wp_float_div_count; [|reflexivity].
      apply Nat.eqb_neq in E. lia.
Qed.
End UtilityFacts.

(* ================================================================== *)
(** * Sorting *)

Section SortFacts.
Context {A : Type} (lt : A -> A -> bool).

Lemma insert_sorted_perm x l : Permutation (insert_sorted lt x l) (x :: l).
Proof.
  induction l as [|y l IH]; simpl.
  - apply Permutation_refl.
  - destruct (lt x y).
    + apply Permutation_refl.
    + eapply Permutation_trans; [apply perm_skip, IH|apply perm_swap].
Qed.

Lemma sort_perm l : Permutation (sort lt l) l.
Proof.
  unfold sort.
  assert (H : forall acc, Permutation (fold_left (fun acc x => insert_sorted lt x acc) l acc)
                                      (acc ++ l)).
  { induction l as [|x l IH]; intros acc; simpl.
    - rewrite app_nil_r. apply Permutation_refl.
    - eapply Permutation_trans; [apply IH|].
      eapply Permutation_trans;
        [apply Permutation_app_tail, insert_sorted_perm|].
      simpl. apply Permutation_cons_app. apply Permutation_refl. }
  apply (H []).
Qed.

Lemma sort_reverse_perm l : Permutation (sort_reverse lt l) l.
Proof.
  unfold sort_reverse.
  eapply Permutation_trans; [apply Permutation_sym, Permutation_rev|].
  eapply Permutation_trans; [apply sort_perm|].
  apply Permutation_sym, Permutation_rev.
Qed.

Hypothesis lt_asym : forall x y, lt x y = true -> lt y x = false.
Hypothesis lt_negtrans :
  forall x y z, lt y x = false -> lt z y = false -> lt z x = false.





End SortFacts.

Lemma sort_reverse_nonempty {A} (lt : A -> A -> bool) l :
  l <> [] -> exists h t, sort_reverse lt l = h :: t.
Proof.
  intros H. destruct (sort_reverse lt l) as [|h t] eqn:E; [|eauto].
  exfalso. apply H.
  apply Permutation_nil. rewrite <- E. apply sort_reverse_perm.
Qed.

Lemma sort_reverse_length {A} (lt : A -> A -> bool) l :
  List.length (sort_reverse lt l) = List.length l.
Proof. apply Permutation_length, sort_reverse_perm. Qed.

(* ================================================================== *)
(** * Statistics of the temporary nodes *)




Lemma same_stats_leaf a b :
  same_counts a b -> children a = [] -> children b = [] -> same_stats a b.
Proof.
  intros H Ha Hb. split; [assumption|]. rewrite Ha, Hb. constructor.
Qed.

Lemma init_copy_leaf t k :
  children t = [] ->
  init_copy t k
  = Ok (Node (S k) (count t) (av_update [] (av_counts t)) [], S k).
Proof.
  destruct t as [i c av cs]. simpl. intros ->.
  unfold bind, gensym, ret. simpl.
  rewrite update_counts_from_node_eq. reflexivity.
Qed.

(* ================================================================== *)
(** * The evaluators do not depend on the counter *)

Section EvaluatorsCounter.
Context {F : Type} {FO : FloatOps F}.



End EvaluatorsCounter.

(* ================================================================== *)
(** * The evaluators return, on trees whose children have absorbed
      instances *)

Lemma pos_nonzero cs :
  Forall (fun c => 1 <= count c) cs -> Forall (fun c => count c <> 0) cs.
Proof. apply Forall_impl. intros; lia. Qed.

Section EvaluatorsTotal.
Context {F : Type} {FO : FloatOps F} {FL : FloatLaws F}.

(** The loop that copies the counts of some children under [temp]. *)
Lemma wp_copy_children (l : list Cobweb) (skip : Cobweb -> bool)
      (touch : Cobweb -> Cobweb -> Cobweb) temp k :
  Forall (fun c => 1 <= count c) l ->
  (forall c tc, count tc <= count (touch c tc)) ->
  Forall (fun c => count c <> 0) (children temp) ->
  wp (for_each l
        (fun temp c =>
           if skip c then ret temp
           else
             temp_child <- init ;;
             ret (append_child temp
                    (touch c (update_counts_from_node temp_child c))))
        temp) k
     (fun temp' k' =>
        (k <= k')%nat /\ count temp' = count temp /\
        Forall (fun c => count c <> 0) (children temp')).
Proof.
  intros Hl Htouch Htemp.
  apply (wp_for_each l _
           (fun _ temp' k' =>
              (k <= k')%nat /\ count temp' = count temp /\
              Forall (fun c => count c <> 0) (children temp'))).
  - auto.
  - intros pre c post t k0 Hpre (Hk & Hc & Hcs).
    assert (Hin : 1 <= count c).
    { rewrite Forall_forall in Hl. apply Hl. rewrite Hpre.
      apply in_or_app. right. now left. }
    destruct (skip c).
    + apply wp_ret. auto.
    + apply wp_bind, wp_init. apply wp_ret.
      split; [lia|]. destruct t as [i n av cs]. simpl in *.
      split; [assumption|].
      apply Forall_app. split; [assumption|].
      constructor; [|constructor].
      specialize (Htouch c (update_counts_from_node (Node (S k0) 0 [] []) c)).
      rewrite update_counts_count in Htouch. simpl in Htouch. lia.
Qed.

Lemma wp_cu_for_insert self child instance k :
  0 <= count self -> pos_children self ->
  wp (cu_for_insert self child instance) k (fun _ k' => (k <= k')%nat).
Proof.
  intros Hc Hpos. unfold cu_for_insert.
  apply wp_bind, wp_init. apply wp_bind.
  pose proof (wp_copy_children (children self) (fun _ => false)
                (fun c tc => if same_node c child
                             then increment_counts tc instance else tc)
                (increment_counts
                   (update_counts_from_node (Node (S k) 0 [] []) self)
                   instance) (S k) Hpos) as H.
  eapply wp_mono; [apply H|].
  - intros c tc. destruct (same_node c child);
      [rewrite increment_counts_count|]; lia.
  - rewrite increment_counts_children, update_counts_children. constructor.
  - intros temp k' (Hk & Hct & Hcs). simpl.
    eapply wp_mono.
    + apply wp_cu; [|exact Hcs].
      rewrite Hct, increment_counts_count, update_counts_count. simpl. lia.
    + intros _ k'' ->. lia.
Qed.

Lemma wp_cu_for_new_child self instance k :
  0 <= count self -> pos_children self ->
  wp (cu_for_new_child self instance) k (fun _ k' => (k <= k')%nat).
Proof.
  intros Hc Hpos. unfold cu_for_new_child, shallow_copy.
  apply wp_bind. apply wp_bind, wp_init.
  pose proof (wp_copy_children (children self) (fun _ => false)
                (fun c tc => tc)
                (update_counts_from_node (Node (S k) 0 [] []) self)
                (S k) Hpos) as H.
  eapply wp_mono; [apply H|].
  - intros; lia.
  - rewrite update_counts_children. constructor.
  - intros temp k' (Hk & Hct & Hcs). simpl.
    unfold create_new_child.
    apply wp_bind. apply wp_bind, wp_init. apply wp_ret.
    eapply wp_mono.
    + apply wp_cu.
      * unfold append_child, set_children. simpl.
        rewrite increment_counts_count, Hct, update_counts_count. simpl. lia.
      * unfold append_child, set_children. simpl.
        rewrite increment_counts_children.
        apply Forall_app. split; [assumption|].
        constructor; [|constructor].
        rewrite increment_counts_count. simpl. lia.
    + intros _ k'' ->. lia.
Qed.

Lemma wp_cu_for_merge self best1 best2 instance k :
  0 <= count self -> pos_children self ->
  0 <= count best1 -> 0 <= count best2 ->
  wp (cu_for_merge self best1 best2 instance) k (fun _ k' => (k <= k')%nat).
Proof.
  intros Hc Hpos H1 H2. unfold cu_for_merge.
  apply wp_bind, wp_init. apply wp_bind, wp_init. apply wp_bind.
  pose proof (wp_copy_children (children self)
                (fun c => same_node c best1 || same_node c best2)
                (fun c tc => tc)
                (append_child
                   (increment_counts
                      (update_counts_from_node (Node (S k) 0 [] []) self)
                      instance)
                   (increment_counts
                      (update_counts_from_node
                         (update_counts_from_node
                            (Node (S (S k)) 0 [] []) best1) best2)
                      instance))
                (S (S k)) Hpos) as H.
  eapply wp_mono; [apply H|].
  - intros; lia.
  - unfold append_child, set_children. simpl.
    rewrite increment_counts_children, update_counts_children. simpl.
    constructor; [|constructor].
    rewrite increment_counts_count, !update_counts_count. simpl. lia.
  - intros temp k' (Hk & Hct & Hcs). simpl.
    eapply wp_mono.
    + apply wp_cu; [|exact Hcs].
      rewrite Hct. unfold append_child, set_children. simpl.
      rewrite increment_counts_count, update_counts_count. simpl. lia.
    + intros _ k'' ->. lia.
Qed.

Lemma wp_cu_for_split self best k :
  1 <= count self -> pos_children self -> pos_children best ->
  wp (cu_for_split self best) k (fun _ k' => (k <= k')%nat).
Proof.
  intros Hc Hpos Hposb. unfold cu_for_split.
  apply wp_bind, wp_init. apply wp_bind.
  assert (Hall : Forall (fun c => 1 <= count c)
                        (children self ++ children best)).
  { apply Forall_app. split; assumption. }
  pose proof (wp_copy_children (children self ++ children best)
                (fun c => same_node c best)
                (fun c tc => tc)
                (update_counts_from_node (Node (S k) 0 [] []) self)
                (S k) Hall) as H.
  eapply wp_mono; [apply H|].
  - intros; lia.
  - rewrite update_counts_children. constructor.
  - intros temp k' (Hk & Hct & Hcs). simpl.
    eapply wp_mono.
    + apply wp_cu; [|exact Hcs].
      rewrite Hct, update_counts_count. simpl. lia.
    + intros _ k'' ->. lia.
Qed.

Lemma wp_cu_for_fringe_split self instance k :
  0 <= count self ->
  wp (cu_for_fringe_split self instance) k (fun _ k' => (k <= k')%nat).
Proof.
  intros Hc. unfold cu_for_fringe_split, create_child_with_current_counts,
               create_new_child.
  apply wp_bind, wp_init. apply wp_bind.
  rewrite update_counts_count. simpl (count (Node _ _ _ _)).
  destruct (0 + count self >? 0) eqn:E.
  - apply wp_bind.
    eapply wp_eq.
    { apply init_copy_leaf. now rewrite update_counts_children. }
    apply wp_ret. apply wp_bind. apply wp_bind, wp_init. apply wp_ret.
    eapply wp_mono.
    + apply wp_cu.
      * unfold append_child, set_children. simpl.
        rewrite increment_counts_count. simpl.
        rewrite update_counts_count. simpl. lia.
      * unfold append_child, set_children. simpl.
        rewrite increment_counts_children. simpl.
        rewrite update_counts_children. simpl.
        constructor; [|constructor; [|constructor]].
        -- simpl. rewrite update_counts_count. simpl. lia.
        -- rewrite increment_counts_count. simpl. lia.
    + intros _ k'' ->. lia.
  - apply wp_ret. apply wp_bind. apply wp_bind, wp_init. apply wp_ret.
    eapply wp_mono.
    + apply wp_cu.
      * unfold append_child, set_children. simpl.
        rewrite increment_counts_count, update_counts_count. simpl. lia.
      * unfold append_child, set_children. simpl.
        rewrite increment_counts_children, update_counts_children. simpl.
        constructor; [|constructor].
        rewrite increment_counts_count. simpl. lia.
    + intros _ k'' ->. lia.
Qed.
End EvaluatorsTotal.

(* ================================================================== *)
(** * A fringe split of a node that has absorbed nothing is worth 0 *)

Section FringeZero.
Context {F : Type} {FO : FloatOps F} {FL : FloatLaws F}.

Lemma float_div_count_eq (x : F) c k :
  c <> 0 ->
  float_div x (fmul f1 (of_int c)) k = Ok (fdiv x (fmul f1 (of_int c)), k).
Proof.
  intros Hc. unfold float_div. rewrite one_mul_nonzero by exact Hc.
  reflexivity.
Qed.

Lemma ecg_value n :
  count n <> 0 ->
  exists e : F, forall k, expected_correct_guesses n k = Ok (e, k).
Proof.
  intros Hc.
  destruct (wp_run _ _ _ (wp_ecg n 0%nat Hc)) as (e & k' & He & ->).
  exists e. intros k.
  apply (counter_free_any _ 0%nat k e 0%nat (counter_free_ecg n) He).
Qed.

Lemma cu_single_same n c k :
  children n = [c] -> same_counts n c -> count n <> 0 ->
  exists v : F, category_utility n k = Ok (v, k) /\ feqb v f0 = true.
Proof.
  intros Hch Hsame Hc.
  destruct (ecg_value n Hc) as (e & He).
  assert (Hcc : count c <> 0) by (destruct Hsame as [<- _]; exact Hc).
  unfold category_utility. rewrite Hch. simpl.
  unfold bind.
  rewrite float_div_count_eq by exact Hc.
  rewrite <- (ecg_same_counts n c Hsame).
  rewrite !He. unfold ret.
  rewrite float_div_count_eq by lia.
  eexists. split; [reflexivity|].
  apply fdiv_zero_l. apply fadd_zero. apply fmul_zero_r. apply fsub_diag.
Qed.

Lemma wp_cu_for_fringe_split_fresh self instance k :
  count self = 0 -> av_counts self = [] ->
  wp (cu_for_fringe_split self instance) k
     (fun v k' => feqb v f0 = true /\ (k <= k')%nat).
Proof.
  intros Hc Hav.
  unfold cu_for_fringe_split, create_child_with_current_counts,
    create_new_child.
  apply wp_bind, wp_init. apply wp_bind.
  rewrite update_counts_count, Hc. simpl.
  apply wp_ret. apply wp_bind. apply wp_bind, wp_init. apply wp_ret.
  match goal with
  | |- wp (category_utility ?n) ?k0 _ =>
      destruct (cu_single_same n (increment_counts (Node (S (S k)) 0 [] [])
                                                   instance) k0)
        as (v & Hv & Hz)
  end.
  - unfold append_child, set_children. simpl.
    rewrite increment_counts_children, update_counts_children. reflexivity.
  - unfold same_counts, append_child, set_children. simpl.
    rewrite !increment_counts_count, !increment_counts_av,
      update_counts_count, update_counts_av, Hc, Hav. simpl. auto.
  - unfold append_child, set_children. simpl.
    rewrite increment_counts_count, update_counts_count, Hc. simpl. lia.
  - eapply wp_eq; [exact Hv|]. split; [exact Hz|lia].
Qed.
End FringeZero.

(* ================================================================== *)
(** * list.remove, merge and split *)

Lemma same_node_refl x : same_node x x = true.
Proof. apply Nat.eqb_refl. Qed.

Lemma list_remove_ok l x k :
  In x l -> NoDup (map concept_id l) ->
  exists l1 l2, l = l1 ++ x :: l2 /\ list_remove l x k = Ok (l1 ++ l2, k).
Proof.
  induction l as [|y l IH]; simpl; [tauto|].
  intros Hin Hnd. inversion Hnd as [|? ? Hy Hl]; subst.
  destruct (same_node y x) eqn:E.
  - exists [], l. simpl. split; [|reflexivity].
    destruct Hin as [->|Hin]; [reflexivity|].
    exfalso. apply Hy. apply Nat.eqb_eq in E. rewrite E.
    now apply in_map.
  - destruct Hin as [->|Hin]; [now rewrite same_node_refl in E|].
    destruct (IH Hin Hl) as (l1 & l2 & -> & Hr).
    exists (y :: l1), l2. split; [reflexivity|].
    unfold bind. rewrite Hr. reflexivity.
Qed.

Lemma fold_append_child cs n :
  fold_left append_child cs n = set_children n (children n ++ cs).
Proof.
  revert n. induction cs as [|c cs IH]; intros n; simpl.
  - rewrite app_nil_r. now destruct n.
  - rewrite IH. unfold append_child, set_children. simpl.
    now rewrite <- app_assoc.
Qed.

Lemma split_ok self best k :
  In best (children self) -> NoDup (map concept_id (children self)) ->
  exists l1 l2,
    children self = l1 ++ best :: l2 /\
    split self best k
    = Ok (set_children self ((l1 ++ l2) ++ children best), k).
Proof.
  intros Hin Hnd.
  destruct (list_remove_ok _ _ k Hin Hnd) as (l1 & l2 & Hl & Hr).
  exists l1, l2. split; [assumption|].
  unfold split, bind. rewrite Hr. unfold ret.
  rewrite fold_append_child. reflexivity.
Qed.

Lemma NoDup_map_remove_mid {A B} (f : A -> B) l1 x l2 :
  NoDup (map f (l1 ++ x :: l2)) -> NoDup (map f (l1 ++ l2)).
Proof.
  rewrite !map_app. simpl. apply NoDup_remove_1.
Qed.

Lemma merge_ok self best1 best2 k :
  In best1 (children self) -> In best2 (children self) ->
  concept_id best1 <> concept_id best2 ->
  NoDup (map concept_id (children self)) ->
  exists rest,
    Permutation (best1 :: best2 :: rest) (children self) /\
    merge self best1 best2 k
    = Ok ((set_children self
             (rest ++ [Node (S k) (count best1 + count best2)
                            (av_update (av_update [] (av_counts best1))
                                       (av_counts best2))
                            [best1; best2]]),
           Node (S k) (count best1 + count best2)
                (av_update (av_update [] (av_counts best1)) (av_counts best2))
                [best1; best2]),
          S k).
Proof.
  intros H1 H2 Hne Hnd.
  destruct (list_remove_ok _ _ (S k) H1 Hnd) as (l1 & l2 & Hl & Hr1).
  assert (H2' : In best2 (l1 ++ l2)).
  { rewrite Hl in H2. apply in_app_or in H2. apply in_or_app.
    destruct H2 as [H2|[H2|H2]]; auto. subst. contradiction. }
  assert (Hnd' : NoDup (map concept_id (l1 ++ l2))).
  { rewrite Hl in Hnd. now apply NoDup_map_remove_mid in Hnd. }
  destruct (list_remove_ok _ _ (S k) H2' Hnd') as (m1 & m2 & Hm & Hr2).
  exists (m1 ++ m2). split.
  - rewrite Hl. apply Permutation_cons_app. rewrite Hm.
    apply Permutation_cons_app. apply Permutation_refl.
  - unfold merge, bind, init, gensym, ret. simpl.
    unfold bind. rewrite Hr1, Hr2.
    rewrite !update_counts_from_node_eq. simpl. reflexivity.
Qed.

(* ================================================================== *)
(** * two_best_children and get_best_operation *)

Section Choice.
Context {F : Type} {FO : FloatOps F} {FL : FloatLaws F}.

Lemma wp_two_best_children self instance k :
  children self <> [] -> 0 <= count self -> pos_children self ->
  wp (two_best_children self instance) k
     (fun r k' =>
        (k <= k')%nat /\
        exists children_cu : list (F * Cobweb),
          map snd children_cu = children self /\
          Forall (fun y => exists k0 k0',
                      cu_for_insert self (snd y) instance k0
                      = Ok (fst y, k0'))
                 children_cu /\
          match sort_reverse (fun x y => fltb (fst x) (fst y)) children_cu
          with
          | [] => False
          | [x] => r = (x, None)
          | x :: y :: _ => r = (x, Some y)
          end).
Proof.
  intros Hne Hc Hpos. unfold two_best_children.
  destruct (Nat.eqb (List.length (children self)) 0) eqn:E.
  { apply Nat.eqb_eq in E. destruct (children self); [congruence|discriminate]. }
  apply wp_bind.
  eapply wp_mono.
  - apply (wp_map_m _ (children self)
             (fun child y =>
                snd y = child /\
                exists k0 k0',
                  cu_for_insert self child instance k0 = Ok (fst y, k0'))).
    intros child k0 _. apply wp_bind.
    destruct (wp_run _ _ _ (wp_cu_for_insert self child instance k0 Hc Hpos))
      as (cu & k1 & Hrun & Hk).
    eapply wp_eq; [exact Hrun|]. apply wp_ret. simpl. eauto.
  - intros children_cu k' [Hall Hk]. simpl.
    assert (Hmap : map snd children_cu = children self).
    { clear - Hall. induction Hall as [|x y l l' [Hxy _] _ IH]; simpl;
        [reflexivity|]. now rewrite Hxy, IH. }
    assert (Hcu : Forall (fun y => exists k0 k0',
                              cu_for_insert self (snd y) instance k0
                              = Ok (fst y, k0')) children_cu).
    { clear - Hall. induction Hall as [|x y l l' [Hxy Hex] _ IH];
        constructor; [now rewrite Hxy|assumption]. }
    destruct (sort_reverse (fun x y => fltb (fst x) (fst y)) children_cu)
      as [|x [|y r]] eqn:Es.
    + exfalso. apply Hne. rewrite <- Hmap.
      apply (f_equal (@List.length _)) in Es.
      rewrite sort_reverse_length in Es.
      destruct children_cu; [reflexivity|discriminate].
    + apply wp_ret. split; [assumption|].
      exists children_cu. rewrite Es. auto.
    + apply wp_ret. split; [assumption|].
      exists children_cu. rewrite Es. auto.
Qed.

(** What the loop of [cobweb] uses of the two best children. *)
Lemma wp_two_best_children_in self instance k :
  children self <> [] -> 0 <= count self -> pos_children self ->
  wp (two_best_children self instance) k
     (fun r k' =>
        (k <= k')%nat /\
        match snd r with
        | None => children self = [snd (fst r)]
        | Some b2 =>
            exists rest,
              Permutation (snd (fst r) :: snd b2 :: rest) (children self)
        end).
Proof.
  intros Hne Hc Hpos.
  eapply wp_mono; [apply wp_two_best_children; assumption|].
  intros r k' (Hk & children_cu & Hmap & _ & Hs). split; [assumption|].
  pose proof (sort_reverse_perm (fun x y : F * Cobweb => fltb (fst x) (fst y))
                                children_cu) as Hp.
  apply (Permutation_map snd) in Hp. rewrite Hmap in Hp.
  destruct (sort_reverse _ children_cu) as [|x [|y rest]]; [contradiction| |].
  - subst r. simpl in *. now apply Permutation_length_1_inv.
  - subst r. simpl in *. exists (map snd rest). exact Hp.
Qed.

Lemma wp_candidate_operations self instance best1 best2 k :
  1 <= count self -> pos_children self ->
  pos_children (snd best1) -> 0 <= count (snd best1) ->
  (forall b2, best2 = Some b2 -> 0 <= count (snd b2)) ->
  wp (candidate_operations self instance best1 best2 default_ops) k
     (fun ops k' =>
        (k <= k')%nat /\ ops <> [] /\
        Forall (fun op : F * string =>
                  snd op = "best"%string \/ snd op = "new"%string \/
                  (snd op = "merge"%string /\ best2 <> None /\
                   (2 < List.length (children self))%nat) \/
                  (snd op = "split"%string /\ children (snd best1) <> []))
               ops).
Proof.
  intros Hc Hpos Hpos1 Hc1 Hc2. unfold candidate_operations.
  destruct best1 as [best1_cu best1]. simpl in *.
  apply wp_bind. apply wp_bind.
  eapply wp_mono; [apply wp_cu_for_new_child; [lia|assumption]|].
  intros cu_new k1 Hk1. apply wp_ret.
  apply wp_bind.
  set (P := fun op : F * string =>
              snd op = "best"%string \/ snd op = "new"%string \/
              (snd op = "merge"%string /\ best2 <> None /\
               (2 < List.length (children self))%nat) \/
              (snd op = "split"%string /\ children best1 <> [])).
  assert (Hmerge :
           wp (match best2 with
               | Some (_, best2n) =>
                   if (true && Nat.ltb 2 (List.length (children self)))%bool
                   then cu <- cu_for_merge self best1 best2n instance ;;
                        ret (([(best1_cu, "best"%string)] ++ [(cu_new, "new"%string)])
                               ++ [(cu, "merge"%string)])
                   else ret ([(best1_cu, "best"%string)] ++ [(cu_new, "new"%string)])
               | None => ret ([(best1_cu, "best"%string)] ++ [(cu_new, "new"%string)])
               end) k1
              (fun ops k' => (k1 <= k')%nat /\ ops <> [] /\ Forall P ops)).
  { assert (Pb : P (best1_cu, "best"%string)) by (unfold P; simpl; auto).
    assert (Pn : P (cu_new, "new"%string)) by (unfold P; simpl; auto).
    destruct best2 as [[best2_cu best2n]|].
    - simpl. destruct (Nat.ltb 2 (List.length (children self))) eqn:E.
      + apply wp_bind.
        eapply wp_mono;
          [apply wp_cu_for_merge;
           [lia|assumption|assumption|apply (Hc2 _ eq_refl)]|].
        intros cu k2 Hk2. apply wp_ret.
        split; [assumption|]. split; [discriminate|].
        apply Nat.ltb_lt in E.
        apply Forall_cons; [exact Pb|].
        apply Forall_cons; [exact Pn|].
        apply Forall_cons; [|apply Forall_nil].
        unfold P. simpl. right. right. left.
        split; [reflexivity|]. split; [discriminate|exact E].
      + apply wp_ret. split; [lia|]. split; [discriminate|].
        apply Forall_cons; [exact Pb|].
        apply Forall_cons; [exact Pn|apply Forall_nil].
    - apply wp_ret. split; [lia|]. split; [discriminate|].
      apply Forall_cons; [exact Pb|].
      apply Forall_cons; [exact Pn|apply Forall_nil]. }
  eapply wp_mono; [exact Hmerge|].
  intros ops k2 (Hk2 & Hne & Hops). simpl.
  destruct (Nat.ltb 0 (List.length (children best1))) eqn:E.
  - apply wp_bind.
    eapply wp_mono; [apply wp_cu_for_split; assumption|].
    intros cu k3 Hk3. apply wp_ret. cbv beta in *.
    split; [lia|]. split; [destruct ops; discriminate|].
    apply Forall_app. split; [assumption|].
    constructor; [|constructor]. unfold P. simpl.
    right. right. right. split; [reflexivity|].
    apply Nat.ltb_lt in E. intros Hnil. rewrite Hnil in E. simpl in E. lia.
  - apply wp_ret. cbv beta in *. split; [lia|]. split; assumption.
Qed.

Lemma wp_get_best_operation self instance best1 best2 k :
  1 <= count self -> pos_children self ->
  pos_children (snd best1) -> 0 <= count (snd best1) ->
  (forall b2, best2 = Some b2 -> 0 <= count (snd b2)) ->
  wp (get_best_operation self instance best1 best2 default_ops) k
     (fun op k' =>
        (k <= k')%nat /\
        (snd op = "best"%string \/ snd op = "new"%string \/
         (snd op = "merge"%string /\ best2 <> None /\
          (2 < List.length (children self))%nat) \/
         (snd op = "split"%string /\ children (snd best1) <> []))).
Proof.
  intros Hc Hpos Hpos1 Hc1 Hc2. unfold get_best_operation.
  apply wp_bind.
  eapply wp_mono; [apply wp_candidate_operations; assumption|].
  intros ops k' (Hk & Hne & Hops). simpl.
  destruct (sort_reverse_nonempty op_lt ops Hne) as (h & t & Hs).
  rewrite Hs. apply wp_ret. split; [assumption|].
  rewrite Forall_forall in Hops. apply Hops.
  apply (Permutation_in _ (sort_reverse_perm op_lt ops)).
  rewrite Hs. now left.
Qed.
End Choice.

(* ================================================================== *)
(** * Sums, identities and sizes *)

Lemma zsum_app l1 l2 : zsum (l1 ++ l2) = zsum l1 + zsum l2.
Proof. unfold zsum. induction l1; simpl; lia. Qed.

Lemma zsum_perm l1 l2 : Permutation l1 l2 -> zsum l1 = zsum l2.
Proof. unfold zsum. induction 1; simpl; lia. Qed.

Lemma zsum_map_mid {A} (f : A -> Z) l1 x l2 :
  zsum (map f (l1 ++ x :: l2)) = f x + zsum (map f (l1 ++ l2)).
Proof. rewrite !map_app, !zsum_app. simpl. lia. Qed.

Lemma zsum_pos {A} (f : A -> Z) l :
  Forall (fun c => 1 <= f c) l -> Z.of_nat (List.length l) <= zsum (map f l).
Proof.
  induction 1; simpl; [lia|]. unfold zsum in *. simpl. lia.
Qed.

Lemma ids_unfold t : ids t = concept_id t :: flat_map ids (children t).
Proof.
  destruct t as [i c av cs]. unfold ids. simpl. f_equal.
  induction cs as [|x cs IH]; simpl; [reflexivity|].
  now rewrite map_app, IH.
Qed.

Lemma ids_self t : In (concept_id t) (ids t).
Proof. rewrite ids_unfold. now left. Qed.

Lemma ids_child t c x : In c (children t) -> In x (ids c) -> In x (ids t).
Proof.
  intros Hc Hx. rewrite ids_unfold. right. apply in_flat_map. eauto.
Qed.

Lemma flat_map_mid {A B} (f : A -> list B) l1 x l2 :
  Permutation (flat_map f (l1 ++ x :: l2)) (f x ++ flat_map f (l1 ++ l2)).
Proof.
  rewrite !flat_map_app. simpl.
  rewrite app_assoc.
  eapply Permutation_trans; [apply Permutation_app_tail, Permutation_app_comm|].
  now rewrite <- app_assoc.
Qed.

Lemma NoDup_app_disjoint {A} (l l' : list A) a :
  NoDup (l ++ l') -> In a l -> ~ In a l'.
Proof.
  induction l as [|x l IH]; simpl; [tauto|].
  intros H [->|Ha] Ha'.
  - inversion H; subst. apply H2. apply in_or_app. now right.
  - inversion H; subst. now apply IH.
Qed.

Lemma NoDup_app_l {A} (l l' : list A) : NoDup (l ++ l') -> NoDup l.
Proof.
  induction l as [|x l IH]; simpl; intros H; [constructor|].
  inversion H; subst. constructor; [|auto].
  intros Hx. apply H2. apply in_or_app. now left.
Qed.

Lemma NoDup_app_r {A} (l l' : list A) : NoDup (l ++ l') -> NoDup l'.
Proof.
  induction l as [|x l IH]; simpl; intros H; [assumption|].
  inversion H; subst. auto.
Qed.

Lemma NoDup_app_intro {A} (l l' : list A) :
  NoDup l -> NoDup l' -> (forall a, In a l -> ~ In a l') -> NoDup (l ++ l').
Proof.
  induction l as [|x l IH]; simpl; intros H H' Hd; [assumption|].
  inversion H; subst. constructor.
  - intros Hx. apply in_app_or in Hx. destruct Hx as [Hx|Hx]; [contradiction|].
    apply (Hd x); auto.
  - apply IH; auto.
Qed.

(** The identities of a node whose child [b] became [b']. *)
Lemma ids_replace i l1 b l2 b' k k' :
  NoDup (i :: flat_map ids (l1 ++ b :: l2)) ->
  Forall (fun x => (x <= k)%nat) (i :: flat_map ids (l1 ++ b :: l2)) ->
  NoDup (ids b') ->
  (forall x, In x (ids b') -> In x (ids b) \/ (k < x <= k')%nat) ->
  NoDup (i :: flat_map ids (l1 ++ b' :: l2)) /\
  (forall x, In x (i :: flat_map ids (l1 ++ b' :: l2)) ->
             In x (i :: flat_map ids (l1 ++ b :: l2)) \/ (k < x <= k')%nat).
Proof.
  intros Hnd Hle Hnd' Hin.
  assert (Hp : forall c,
             Permutation (i :: flat_map ids (l1 ++ c :: l2))
                         (ids c ++ i :: flat_map ids (l1 ++ l2))).
  { intros c. eapply Permutation_trans; [apply perm_skip, flat_map_mid|].
    apply Permutation_middle. }
  assert (Hnd0 : NoDup (ids b ++ i :: flat_map ids (l1 ++ l2))).
  { eapply Permutation_NoDup; [apply Hp|assumption]. }
  assert (Hle0 : Forall (fun x => (x <= k)%nat)
                        (ids b ++ i :: flat_map ids (l1 ++ l2))).
  { eapply Permutation_Forall; [apply Hp|assumption]. }
  apply Forall_app in Hle0. destruct Hle0 as [_ Hle0].
  rewrite Forall_forall in Hle0.
  split.
  - eapply Permutation_NoDup; [apply Permutation_sym, Hp|].
    apply NoDup_app_intro; [assumption|now apply NoDup_app_r in Hnd0|].
    intros x Hx Hx'. destruct (Hin x Hx) as [Hb|Hk].
    + now apply (NoDup_app_disjoint _ _ x Hnd0).
    + apply Hle0 in Hx'. lia.
  - intros x Hx. apply (Permutation_in _ (Hp b')) in Hx.
    apply in_app_or in Hx. destruct Hx as [Hx|Hx].
    + destruct (Hin x Hx) as [Hb|Hk]; [left|now right].
      apply (Permutation_in _ (Permutation_sym (Hp b))).
      apply in_or_app. now left.
    + left. apply (Permutation_in _ (Permutation_sym (Hp b))).
      apply in_or_app. now right.
Qed.

Lemma num_concepts_unfold t :
  num_concepts t = S (list_sum (map num_concepts (children t))).
Proof. destruct t; reflexivity. Qed.

Lemma num_concepts_pos t : (1 <= num_concepts t)%nat.
Proof. rewrite num_concepts_unfold. lia. Qed.

Lemma list_sum_perm l1 l2 : Permutation l1 l2 -> list_sum l1 = list_sum l2.
Proof. induction 1; simpl; lia. Qed.

Lemma num_concepts_child t c :
  In c (children t) -> (num_concepts c < num_concepts t)%nat.
Proof.
  intros H. rewrite (num_concepts_unfold t).
  apply in_split in H. destruct H as (l1 & l2 & ->).
  rewrite map_app, list_sum_app. simpl. lia.
Qed.

Lemma nodes_unfold t : nodes t = t :: flat_map nodes (children t).
Proof. destruct t; reflexivity. Qed.

Lemma set_children_fields n cs :
  concept_id (set_children n cs) = concept_id n /\
  count (set_children n cs) = count n /\
  av_counts (set_children n cs) = av_counts n /\
  children (set_children n cs) = cs.
Proof. destruct n; simpl; auto. Qed.

Lemma replace_child_eq self l1 b l2 b' :
  children self = l1 ++ b :: l2 ->
  NoDup (map concept_id (children self)) ->
  replace_child self b b' = set_children self (l1 ++ b' :: l2).
Proof.
  intros Hl Hnd. unfold replace_child. f_equal. rewrite Hl in *.
  rewrite map_app in Hnd. simpl in Hnd.
  assert (H1 : forall c, In c l1 -> same_node c b = false).
  { intros c Hc. apply Nat.eqb_neq. intros E.
    apply NoDup_remove_2 in Hnd. apply Hnd. apply in_or_app. left.
    rewrite <- E. now apply in_map. }
  assert (H2 : forall c, In c l2 -> same_node c b = false).
  { intros c Hc. apply Nat.eqb_neq. intros E.
    apply NoDup_remove_2 in Hnd. apply Hnd. apply in_or_app. right.
    rewrite <- E. now apply in_map. }
  rewrite map_app. simpl. rewrite same_node_refl. f_equal.
  - rewrite <- (map_id l1) at 2. apply map_ext_in. intros c Hc.
    now rewrite H1.
  - f_equal. rewrite <- (map_id l2) at 2. apply map_ext_in. intros c Hc.
    now rewrite H2.
Qed.

Lemma NoDup_ids_children t :
  NoDup (ids t) -> NoDup (map concept_id (children t)).
Proof.
  rewrite ids_unfold. intros H. inversion H as [|? ? _ Hnd]; subst. clear H.
  induction (children t) as [|c cs IH]; simpl in *; [constructor|].
  constructor.
  - intros Hin. apply in_map_iff in Hin. destruct Hin as (d & Hd & Hin).
    apply (NoDup_app_disjoint _ _ (concept_id c) Hnd); [apply ids_self|].
    apply in_flat_map. exists d. split; [assumption|].
    rewrite <- Hd. apply ids_self.
  - apply IH. now apply NoDup_app_r in Hnd.
Qed.

Lemma NoDup_ids_child t c : NoDup (ids t) -> In c (children t) -> NoDup (ids c).
Proof.
  rewrite ids_unfold. intros H Hc. inversion H as [|? ? _ Hnd]; subst.
  apply in_split in Hc. destruct Hc as (l1 & l2 & Hl). rewrite Hl in Hnd.
  apply (Permutation_NoDup (flat_map_mid ids l1 c l2)) in Hnd.
  now apply NoDup_app_l in Hnd.
Qed.

(* ================================================================== *)
(** * Closing a parent after one of its children absorbed the instance *)

Lemma Forall_mid {A} (P : A -> Prop) l1 x l2 :
  Forall P (l1 ++ x :: l2) <-> P x /\ Forall P (l1 ++ l2).
Proof.
  rewrite !Forall_app. split.
  - intros [H1 H2]. inversion H2; subst. auto.
  - intros [H1 [H2 H3]]. auto.
Qed.

Lemma flat_map_one {A B} (f : A -> list B) x : flat_map f [x] = f x.
Proof. simpl. apply app_nil_r. Qed.

Lemma flat_map_two {A B} (f : A -> list B) x y :
  flat_map f [x; y] = f x ++ f y.
Proof. simpl. now rewrite app_nil_r. Qed.

Lemma ids_node i c av cs : ids (Node i c av cs) = i :: flat_map ids cs.
Proof. apply ids_unfold. Qed.

Lemma ids_merge i b1 b2 rest cs k c av :
  Permutation (b1 :: b2 :: rest) cs ->
  NoDup (i :: flat_map ids cs) ->
  Forall (fun x => (x <= k)%nat) (i :: flat_map ids cs) ->
  Permutation (i :: flat_map ids (rest ++ [Node (S k) c av [b1; b2]]))
              (S k :: i :: flat_map ids cs) /\
  NoDup (i :: flat_map ids (rest ++ [Node (S k) c av [b1; b2]])).
Proof.
  intros Hp Hnd Hle.
  assert (H : Permutation
                (i :: flat_map ids (rest ++ [Node (S k) c av [b1; b2]]))
                (S k :: i :: flat_map ids cs)).
  { eapply Permutation_trans; [|apply perm_swap]. apply perm_skip.
    rewrite flat_map_app, flat_map_one, ids_node, flat_map_two.
    eapply Permutation_trans; [apply Permutation_app_comm|].
    rewrite <- app_comm_cons.
    apply perm_skip.
    eapply Permutation_trans;
      [|apply (Permutation_flat_map ids Hp)].
    cbn [flat_map]. now rewrite app_assoc. }
  split; [exact H|].
  eapply Permutation_NoDup; [apply Permutation_sym, H|].
  constructor; [|assumption].
  intros Hin. rewrite Forall_forall in Hle. apply Hle in Hin. lia.
Qed.

Lemma ids_split i l1 b l2 :
  Permutation (i :: flat_map ids (l1 ++ b :: l2))
              (concept_id b
               :: i :: flat_map ids ((l1 ++ l2) ++ children b)).
Proof.
  eapply Permutation_trans; [apply perm_skip, flat_map_mid|].
  rewrite (ids_unfold b). rewrite <- app_comm_cons.
  eapply Permutation_trans; [apply perm_swap|]. apply perm_skip. apply perm_skip.
  rewrite (flat_map_app ids (l1 ++ l2)).
  apply Permutation_app_comm.
Qed.

Section CloseParent.
Context {F : Type} {FO : FloatOps F}.
Variable min_cu : F.
Variable instance : Instance.

Lemma close_parent p l1 b l2 r k k' :
  children p = l1 ++ b :: l2 ->
  open_struct k p ->
  loop_post min_cu instance b k r k' ->
  tree_all node_struct (set_children p (l1 ++ fst r :: l2)) /\
  NoDup (ids (set_children p (l1 ++ fst r :: l2))) /\
  (forall i, In i (ids (set_children p (l1 ++ fst r :: l2))) ->
             In i (ids p) \/ (k < i <= k')%nat) /\
  In (snd r) (nodes (set_children p (l1 ++ fst r :: l2))) /\
  (fleb f0 min_cu = true ->
   two_kids p -> Forall (tree_all two_kids) (children p) ->
   tree_all two_kids (set_children p (l1 ++ fst r :: l2))) /\
  (plain_instance instance -> open_av instance p ->
   tree_all av_ok (set_children p (l1 ++ fst r :: l2))).
Proof.
  intros Hl (Hc & Hpos & Hall & Hndp & Hlep)
         (Hk & Hid & Hcnt & Hts & Hnd & Hids & Hleaf & Hin & H2k & Hav).
  destruct r as [b' leaf]. cbn [fst snd] in *.
  destruct (set_children_fields p (l1 ++ b' :: l2)) as (Fi & Fc & Fa & Fch).
  unfold pos_children in Hpos. rewrite Hl in Hpos, Hall, Hc.
  apply Forall_mid in Hpos. destruct Hpos as [Hposb Hpos].
  apply Forall_mid in Hall. destruct Hall as [Hallb Hall].
  rewrite zsum_map_mid in Hc.
  split; [|split; [|split; [|split; [|split]]]].
  - rewrite tree_all_unfold, Fch. split.
    + split.
      * right. rewrite Fc, Fch, zsum_map_mid. lia.
      * unfold pos_children. rewrite Fch. apply Forall_mid.
        split; [lia|assumption].
    + apply Forall_mid. auto.
  - rewrite ids_unfold, Fi, Fch.
    rewrite ids_unfold, Hl in Hndp, Hlep.
    apply (ids_replace _ _ _ _ _ _ _ Hndp Hlep Hnd Hids).
  - rewrite ids_unfold, Fi, Fch. rewrite (ids_unfold p), Hl.
    rewrite ids_unfold, Hl in Hndp, Hlep.
    apply (ids_replace _ _ _ _ _ _ _ Hndp Hlep Hnd Hids).
  - apply (nodes_child _ b'); [|assumption].
    rewrite Fch. apply in_or_app. right. now left.
  - intros Hm Hp Hcs. rewrite tree_all_unfold, Fch. split.
    + unfold two_kids in *. rewrite Fch. right.
      destruct Hp as [Hp|Hp]; rewrite Hl in Hp.
      * destruct l1; discriminate.
      * rewrite length_app in *. simpl in *. lia.
    + rewrite Hl in Hcs. apply Forall_mid in Hcs. destruct Hcs as [Hb Hcs].
      apply Forall_mid. auto.
  - intros Hplain (Hwf & Hsum & Hch).
    rewrite Hl in Hch. apply Forall_mid in Hch. destruct Hch as [Hb Hch].
    destruct (Hav Hplain Hb) as [Hb' Hget].
    rewrite tree_all_unfold, Fch. split.
    + split; [now rewrite Fa|].
      right. intros a v. rewrite Fa, Fch, Hsum, Hl, !zsum_map_mid, Hget. lia.
    + apply Forall_mid. auto.
Qed.
End CloseParent.

(* ================================================================== *)
(** * The loop of [cobweb]: the leaf *)

Lemma remap_plain (instance : Instance) (f : value -> value) (g : value -> bool) :
  plain_instance instance ->
  (forall v, plain_value v -> g v = false) ->
  map (fun '(attr, val) => (attr, if g val then f val else val)) instance
  = instance.
Proof.
  intros H Hg. induction H as [|[a v] i Hv Hi IH]; simpl; [reflexivity|].
  rewrite IH. simpl in Hv. now rewrite (Hg v Hv).
Qed.

Lemma value_is_node_plain v n : plain_value v -> value_is_node v n = false.
Proof. destruct v; simpl; tauto. Qed.

Lemma internal_count n :
  children n <> [] -> node_struct n -> 1 <= count n.
Proof.
  intros Hne [[Hc|Hc] Hpos]; [contradiction|].
  pose proof (zsum_pos count (children n) Hpos) as H.
  assert (H1 : 1 <= Z.of_nat (List.length (children n))).
  { destruct (children n); [contradiction|]. simpl. lia. }
  lia.
Qed.

Section LoopLeaf.
Context {F : Type} {FO : FloatOps F} {FL : FloatLaws F}.
Variable min_cu : F.
Variable instance : Instance.

Lemma cobweb_loop_S fuel current :
  cobweb_loop min_cu (S fuel) current instance
  = match children current with
    | [] =>
        cu <- cu_for_fringe_split current instance ;;
        if fleb cu min_cu then
          let current := increment_counts current instance in
          ret (current, current)
        else
          '(current, new) <- create_child_with_current_counts current ;;
          let instance :=
            map (fun '(attr, val) =>
                   (attr,
                    if value_is_node val current then
                      match new with
                      | Some n => VConcept (concept_id n)
                      | None => VNone
                      end
                    else val))
                instance in
          let current := increment_counts current instance in
          create_new_child current instance
    | _ :: _ =>
        '(best1, best2) <- two_best_children current instance ;;
        '(action_cu, best_action) <-
          get_best_operation current instance best1 best2 default_ops ;;
        let '(best1_cu, best1) := best1 in
        if fleb action_cu min_cu then
          let current := increment_counts current instance in
          let current := set_children current [] in
          ret (current, current)
        else if String.eqb best_action "best" then
          let current := increment_counts current instance in
          '(best1', leaf) <- cobweb_loop min_cu fuel best1 instance ;;
          ret (replace_child current best1 best1', leaf)
        else if String.eqb best_action "new" then
          let current := increment_counts current instance in
          create_new_child current instance
        else if String.eqb best_action "merge" then
          let current := increment_counts current instance in
          match best2 with
          | None => raise AttributeError
          | Some (best2_cu, best2) =>
              '(current, new_child) <- merge current best1 best2 ;;
              '(new_child', leaf) <-
                cobweb_loop min_cu fuel new_child instance ;;
              ret (replace_child current new_child new_child', leaf)
          end
        else if String.eqb best_action "split" then
          current <- split current best1 ;;
          cobweb_loop min_cu fuel current instance
        else raise (Exception "Should never get here.")
    end.
Proof. reflexivity. Qed.

(** The contract holds of a node that absorbs the instance and becomes
    or stays a leaf. *)
Lemma loop_post_leaf current k k1 :
  tree_struct k current -> (k <= k1)%nat ->
  loop_post min_cu instance current k
    (set_children (increment_counts current instance) [],
     set_children (increment_counts current instance) []) k1.
Proof.
  intros (Hc0 & Hfresh & Hts & Hnd & Hle) Hk.
  unfold loop_post. cbn [fst snd].
  destruct (set_children_fields (increment_counts current instance) [])
    as (Fi & Fc & Fa & Fch).
  rewrite Fi, Fc, Fa, Fch, increment_counts_id, increment_counts_count,
    increment_counts_av.
  assert (Hids : ids (set_children (increment_counts current instance) [])
                 = [concept_id current]).
  { rewrite ids_unfold, Fi, Fch, increment_counts_id. reflexivity. }
  rewrite Hids. split_and.
  - assumption.
  - reflexivity.
  - reflexivity.
  - apply tree_all_leaf; [assumption|]. split; [now left|].
    unfold pos_children. rewrite Fch. constructor.
  - repeat constructor. intros [].
  - intros i [<-|[]]. left. apply ids_self.
  - reflexivity.
  - apply nodes_self.
  - intros _ _. apply tree_all_leaf; [assumption|]. now left.
  - intros Hplain Hav. split.
    + apply tree_all_leaf; [assumption|]. split; [|now left].
      rewrite Fa, increment_counts_av. apply av_wf_incr.
      apply tree_all_root in Hav. apply Hav.
    + intros a v. apply av_get_incr.
Qed.
End LoopLeaf.

(* ================================================================== *)
(** * The loop of [cobweb]: a new child for the instance *)

Lemma set_children_same n : set_children n (children n) = n.
Proof. now destruct n. Qed.

Lemma append_child_fields n c :
  concept_id (append_child n c) = concept_id n /\
  count (append_child n c) = count n /\
  av_counts (append_child n c) = av_counts n /\
  children (append_child n c) = children n ++ [c].
Proof. destruct n; simpl; auto. Qed.

Lemma new_leaf_fields k instance :
  concept_id (increment_counts (Node k 0 [] []) instance) = k /\
  count (increment_counts (Node k 0 [] []) instance) = 1 /\
  av_counts (increment_counts (Node k 0 [] []) instance) = av_incr [] instance /\
  children (increment_counts (Node k 0 [] []) instance) = [].
Proof. rewrite increment_counts_eq. simpl. auto. Qed.

Lemma av_get_nil a v : av_get [] a v = 0.
Proof. reflexivity. Qed.

Section LoopAppend.
Variable instance : Instance.

(** [p] is a node whose counts are those of its children; it absorbs
    the instance and gets a new child that holds the instance alone. *)
Lemma append_new_child p k :
  count p = zsum (map count (children p)) ->
  pos_children p ->
  Forall (tree_all node_struct) (children p) ->
  NoDup (ids p) ->
  Forall (fun i => (i <= k)%nat) (ids p) ->
  let nc := increment_counts (Node (S k) 0 [] []) instance in
  let p' := append_child (increment_counts p instance) nc in
  concept_id p' = concept_id p /\
  count p' = count p + 1 /\
  tree_all node_struct p' /\
  NoDup (ids p') /\
  (forall i, In i (ids p') -> In i (ids p) \/ i = S k) /\
  children nc = [] /\
  In nc (nodes p') /\
  children p' = children p ++ [nc] /\
  (Forall (tree_all two_kids) (children p) -> children p <> [] ->
   tree_all two_kids p') /\
  (av_wf (av_counts p) ->
   (forall a v, av_get (av_counts p) a v
                = zsum (map (fun c => av_get (av_counts c) a v) (children p))) ->
   Forall (tree_all av_ok) (children p) ->
   tree_all av_ok p' /\
   forall a v, av_get (av_counts p') a v
               = av_get (av_counts p) a v + inst_count instance a v).
Proof.
  intros Hc Hpos Hall Hnd Hle nc p'.
  destruct (new_leaf_fields (S k) instance) as (Ni & Nc & Na & Nch).
  fold nc in Ni, Nc, Na, Nch.
  destruct (append_child_fields (increment_counts p instance) nc)
    as (Fi & Fc & Fa & Fch).
  fold p' in Fi, Fc, Fa, Fch.
  rewrite increment_counts_id in Fi. rewrite increment_counts_count in Fc.
  rewrite increment_counts_av in Fa. rewrite increment_counts_children in Fch.
  assert (Hnc : ids nc = [S k]).
  { rewrite ids_unfold, Ni, Nch. reflexivity. }
  assert (Hids : ids p' = ids p ++ [S k]).
  { rewrite (ids_unfold p'), Fi, Fch, flat_map_app, flat_map_one, Hnc.
    rewrite (ids_unfold p). reflexivity. }
  split_and.
  - assumption.
  - assumption.
  - rewrite tree_all_unfold, Fch. split.
    + split.
      * right. rewrite Fc, Fch, map_app, zsum_app. simpl. lia.
      * unfold pos_children. rewrite Fch. apply Forall_app. split; [assumption|].
        constructor; [lia|constructor].
    + apply Forall_app. split; [assumption|].
      constructor; [|constructor].
      apply tree_all_leaf; [assumption|]. split; [now left|].
      unfold pos_children. rewrite Nch. constructor.
  - rewrite Hids. apply NoDup_app_intro; [assumption|repeat constructor; intros []|].
    intros a Ha [<-|[]]. rewrite Forall_forall in Hle. apply Hle in Ha. lia.
  - intros i. rewrite Hids. intros Hi. apply in_app_or in Hi.
    destruct Hi as [Hi|[<-|[]]]; auto.
  - assumption.
  - apply (nodes_child _ nc); [|apply nodes_self].
    rewrite Fch. apply in_or_app. right. now left.
  - assumption.
  - intros H2 Hne. rewrite tree_all_unfold, Fch. split.
    + right. rewrite Fch, length_app. simpl.
      destruct (children p); [contradiction|]. simpl. lia.
    + apply Forall_app. split; [assumption|].
      constructor; [|constructor]. apply tree_all_leaf; [assumption|]. now left.
  - intros Hwf Hsum Hch. split.
    + rewrite tree_all_unfold, Fch. split.
      * split; [rewrite Fa; now apply av_wf_incr|].
        right. intros a v. rewrite Fa, Fch, map_app, zsum_app, av_get_incr, Hsum.
        simpl. rewrite Na, av_get_incr, av_get_nil. lia.
      * apply Forall_app. split; [assumption|].
        constructor; [|constructor]. apply tree_all_leaf; [assumption|].
        split; [|now left]. rewrite Na. apply av_wf_incr, av_wf_nil.
    + intros a v. rewrite Fa. apply av_get_incr.
Qed.
End LoopAppend.

(* ================================================================== *)
(** * The loop of [cobweb] at a leaf *)

Section LoopLeafBranch.
Context {F : Type} {FO : FloatOps F} {FL : FloatLaws F}.
Variable min_cu : F.
Variable instance : Instance.

Lemma leaf_branch fuel current k :
  children current = [] -> tree_struct k current ->
  wp (cobweb_loop min_cu (S fuel) current instance) k
     (loop_post min_cu instance current k).
Proof.
  intros Hch Hts.
  pose proof Hts as (Hc0 & Hfresh & Htree & Hnd & Hle).
  rewrite cobweb_loop_S, Hch. apply wp_bind.
  destruct (wp_run _ _ _ (wp_cu_for_fringe_split current instance k Hc0))
    as (cu & k1 & Hrun & Hk1).
  eapply wp_eq; [exact Hrun|].
  destruct (fleb cu min_cu) eqn:Hcu.
  { apply wp_ret.
    rewrite <- (set_children_same (increment_counts current instance)).
    rewrite increment_counts_children, Hch.
    now apply loop_post_leaf. }
  assert (Hids0 : ids current = [concept_id current]).
  { rewrite ids_unfold, Hch. reflexivity. }
  unfold create_child_with_current_counts.
  destruct (count current >? 0) eqn:Hpos.
  - (* the leaf is pushed down into a first child *)
    apply Z.gtb_lt in Hpos.
    apply wp_bind. apply wp_bind.
    eapply wp_eq; [apply init_copy_leaf; exact Hch|]. apply wp_ret.
    cbv beta iota zeta.
    set (new := Node (S k1) (count current)
                     (av_update [] (av_counts current)) []).
    set (inst' := map _ instance).
    unfold create_new_child. apply wp_bind, wp_init. apply wp_ret.
    destruct (append_child_fields current new) as (Pi & Pc & Pa & Pch).
    rewrite Hch in Pch. change ([] ++ [new]) with [new] in Pch.
    assert (Hnew : ids new = [S k1]) by reflexivity.
    set (p := append_child current new) in *. clearbody p.
    assert (Hidsp : ids p = [concept_id current; S k1]).
    { rewrite ids_unfold, Pi, Pch, flat_map_one, Hnew. reflexivity. }
    assert (Hidle : (concept_id current <= k)%nat).
    { rewrite Hids0 in Hle. now inversion Hle. }
    destruct (append_new_child inst' p (S k1))
      as (Ri & Rc & Rt & Rnd & Rids & Rleaf & Rin & Rch & R2 & Rav).
    + rewrite Pc, Pch. simpl. lia.
    + unfold pos_children. rewrite Pch. constructor; [simpl; lia|constructor].
    + rewrite Pch. constructor; [|constructor].
      apply tree_all_leaf; [reflexivity|]. split; [now left|constructor].
    + rewrite Hidsp. constructor; [|repeat constructor; intros []].
      intros [H|[]]. lia.
    + rewrite Hidsp. repeat constructor; lia.
    + unfold loop_post. cbn [fst snd]. split_and.
      * lia.
      * now rewrite Ri, Pi.
      * now rewrite Rc, Pc.
      * exact Rt.
      * exact Rnd.
      * intros i Hi. apply Rids in Hi. rewrite Hidsp, Hids0 in *.
        destruct Hi as [[Hi|[Hi|[]]]|Hi]; [left; now left|right; lia|right; lia].
      * exact Rleaf.
      * exact Rin.
      * intros _ _. apply R2; [|rewrite Pch; discriminate].
        rewrite Pch. constructor; [|constructor].
        apply tree_all_leaf; [reflexivity|]. now left.
      * intros Hplain Hav.
        assert (Hi : inst' = instance).
        { apply remap_plain; [assumption|].
          intros v Hv. now apply value_is_node_plain. }
        rewrite Hi in *.
        apply tree_all_root in Hav. destruct Hav as [Hwf _].
        rewrite Pa in Rav.
        apply Rav.
        -- assumption.
        -- intros a v. rewrite Pch. simpl.
           rewrite av_get_update_empty by assumption. lia.
        -- rewrite Pch. constructor; [|constructor].
           apply tree_all_leaf; [reflexivity|]. split; [|now left].
           simpl. apply av_wf_update, av_wf_nil.
  - (* the node has absorbed nothing: no first child *)
    assert (Hz : count current = 0).
    { destruct (Z.gtb_spec (count current) 0); [discriminate|lia]. }
    apply wp_bind. apply wp_ret.
    cbv beta iota zeta.
    set (inst' := map _ instance).
    unfold create_new_child. apply wp_bind, wp_init. apply wp_ret.
    destruct (append_new_child inst' current k1)
      as (Ri & Rc & Rt & Rnd & Rids & Rleaf & Rin & Rch & R2 & Rav).
    + rewrite Hch, Hz. reflexivity.
    + unfold pos_children. rewrite Hch. constructor.
    + rewrite Hch. constructor.
    + assumption.
    + eapply Forall_impl; [|exact Hle]. intros; simpl in *; lia.
    + unfold loop_post. cbn [fst snd]. split_and.
      * lia.
      * exact Ri.
      * exact Rc.
      * exact Rt.
      * exact Rnd.
      * intros i Hi. apply Rids in Hi. destruct Hi as [Hi|Hi]; [now left|right; lia].
      * exact Rleaf.
      * exact Rin.
      * intros Hm _. exfalso.
        destruct (wp_run _ _ _
                    (wp_cu_for_fringe_split_fresh current instance k Hz
                                                  (Hfresh Hz)))
          as (v & k2 & Hrun2 & Hv & _).
        rewrite Hrun in Hrun2. inversion Hrun2; subst.
        rewrite (fleb_zero _ _ Hv Hm) in Hcu. discriminate.
      * intros Hplain Hav.
        assert (Hi : inst' = instance).
        { apply remap_plain; [assumption|].
          intros v Hv. now apply value_is_node_plain. }
        rewrite Hi in *.
        apply tree_all_root in Hav. destruct Hav as [Hwf _].
        apply Rav.
        -- assumption.
        -- intros a v. rewrite Hch, (Hfresh Hz). reflexivity.
        -- rewrite Hch. constructor.
Qed.
End LoopLeafBranch.

(* ================================================================== *)
(** * The loop of [cobweb] at a node with children *)

Lemma ids_increment n i : ids (increment_counts n i) = ids n.
Proof.
  rewrite (ids_unfold (increment_counts n i)), increment_counts_id,
    increment_counts_children. symmetry. apply ids_unfold.
Qed.

Lemma Forall_le_mono (l : list nat) k k2 :
  (k <= k2)%nat -> Forall (fun i => (i <= k)%nat) l ->
  Forall (fun i => (i <= k2)%nat) l.
Proof. intros H. apply Forall_impl. intros; lia. Qed.

Lemma tree_struct_child k k2 t c :
  tree_struct k t -> In c (children t) -> (k <= k2)%nat -> tree_struct k2 c.
Proof.
  intros (Hc0 & Hfresh & Htree & Hnd & Hle) Hin Hk.
  pose proof (tree_all_root _ _ Htree) as [_ Hpos].
  pose proof (tree_all_children _ _ Htree) as Hall.
  unfold pos_children in Hpos. rewrite Forall_forall in Hpos, Hall.
  specialize (Hpos c Hin). specialize (Hall c Hin).
  repeat split.
  - lia.
  - intros; lia.
  - assumption.
  - now apply (NoDup_ids_child t).
  - apply (Forall_le_mono _ k); [assumption|].
    rewrite Forall_forall in *. intros x Hx. apply Hle.
    now apply (ids_child t c).
Qed.

Lemma open_struct_increment k k2 current instance :
  tree_struct k current -> children current <> [] -> (k <= k2)%nat ->
  open_struct k2 (increment_counts current instance).
Proof.
  intros (Hc0 & Hfresh & Htree & Hnd & Hle) Hne Hk.
  pose proof (tree_all_root _ _ Htree) as [[Hcons|Hcons] Hpos];
    [contradiction|].
  unfold open_struct, pos_children.
  rewrite increment_counts_count, increment_counts_children, ids_increment.
  split_and.
  - lia.
  - assumption.
  - now apply tree_all_children.
  - assumption.
  - now apply (Forall_le_mono _ k).
Qed.

Lemma open_av_increment current instance :
  tree_all av_ok current -> children current <> [] ->
  open_av instance (increment_counts current instance).
Proof.
  intros Hav Hne.
  pose proof (tree_all_root _ _ Hav) as [Hwf [Hcons|Hcons]]; [contradiction|].
  unfold open_av.
  rewrite increment_counts_av, increment_counts_children.
  split_and.
  - now apply av_wf_incr.
  - intros a v. rewrite av_get_incr, Hcons. reflexivity.
  - now apply tree_all_children.
Qed.

Section LoopBranches.
Context {F : Type} {FO : FloatOps F} {FL : FloatLaws F}.
Variable min_cu : F.
Variable instance : Instance.
Variable fuel : nat.

Hypothesis IHloop :
  forall n k,
    (num_concepts n <= fuel)%nat -> tree_struct k n ->
    wp (cobweb_loop min_cu fuel n instance) k
       (loop_post min_cu instance n k).

Lemma best_branch current k k2 best1 :
  tree_struct k current -> (num_concepts current <= S fuel)%nat ->
  In best1 (children current) -> (k <= k2)%nat ->
  wp ('(best1', leaf) <- cobweb_loop min_cu fuel best1 instance ;;
      ret (replace_child (increment_counts current instance) best1 best1',
           leaf))
     k2 (loop_post min_cu instance current k).
Proof.
  intros Hts Hfuel Hin Hk.
  assert (Hne : children current <> []).
  { intros E. rewrite E in Hin. contradiction. }
  pose proof Hts as (Hc0 & Hfresh & Htree & Hnd & Hle).
  apply wp_bind. eapply wp_mono.
  { apply IHloop.
    - pose proof (num_concepts_child _ _ Hin). lia.
    - now apply (tree_struct_child k k2 current). }
  intros [best1' leaf] k3 Hpost. apply wp_ret.
  destruct (in_split _ _ Hin) as (l1 & l2 & Hl).
  set (p := increment_counts current instance) in *.
  assert (Hpl : children p = l1 ++ best1 :: l2).
  { unfold p. now rewrite increment_counts_children. }
  assert (Hpids : ids p = ids current) by apply ids_increment.
  rewrite (replace_child_eq p l1 best1 l2 best1' Hpl).
  2:{ apply NoDup_ids_children. now rewrite Hpids. }
  pose proof (open_struct_increment k k2 current instance Hts Hne Hk) as Hopen.
  fold p in Hopen.
  destruct (close_parent min_cu instance p l1 best1 l2 (best1', leaf) k2 k3
                         Hpl Hopen Hpost)
    as (Ct & Cnd & Cids & Cin & C2 & Cav).
  cbn [fst snd] in *.
  destruct Hpost as (Hk3 & _ & _ & _ & _ & _ & Hleaf & _).
  destruct (set_children_fields p (l1 ++ best1' :: l2)) as (Fi & Fc & Fa & Fch).
  unfold loop_post. cbn [fst snd]. split_and.
  - lia.
  - rewrite Fi. apply increment_counts_id.
  - rewrite Fc. apply increment_counts_count.
  - exact Ct.
  - exact Cnd.
  - intros i Hi. apply Cids in Hi. rewrite Hpids in Hi.
    destruct Hi as [Hi|Hi]; [now left|right; lia].
  - exact Hleaf.
  - exact Cin.
  - intros Hm H2. apply C2; [assumption| |].
    + apply tree_all_root in H2. unfold two_kids in *.
      unfold p. now rewrite increment_counts_children.
    + unfold p. rewrite increment_counts_children.
      now apply tree_all_children.
  - intros Hplain Hav. split.
    + apply Cav; [assumption|]. now apply open_av_increment.
    + intros a v. rewrite Fa. unfold p.
      rewrite increment_counts_av. apply av_get_incr.
Qed.

Lemma new_branch current k k2 :
  tree_struct k current -> children current <> [] -> (k <= k2)%nat ->
  wp (create_new_child (increment_counts current instance) instance)
     k2 (loop_post min_cu instance current k).
Proof.
  intros Hts Hne Hk.
  pose proof Hts as (Hc0 & Hfresh & Htree & Hnd & Hle).
  pose proof (tree_all_root _ _ Htree) as [[Hcons|Hcons] Hpos];
    [contradiction|].
  unfold create_new_child. apply wp_bind, wp_init. apply wp_ret.
  destruct (append_new_child instance current k2)
    as (Ri & Rc & Rt & Rnd & Rids & Rleaf & Rin & Rch & R2 & Rav).
  - assumption.
  - assumption.
  - now apply tree_all_children.
  - assumption.
  - now apply (Forall_le_mono _ k).
  - unfold loop_post. cbn [fst snd]. split_and.
    + lia.
    + exact Ri.
    + exact Rc.
    + exact Rt.
    + exact Rnd.
    + intros i Hi. apply Rids in Hi. destruct Hi as [Hi|Hi]; [now left|right; lia].
    + exact Rleaf.
    + exact Rin.
    + intros _ H2. apply R2; [|assumption]. now apply tree_all_children.
    + intros Hplain Hav.
      pose proof (tree_all_root _ _ Hav) as [Hwf [Hac|Hac]]; [contradiction|].
      apply Rav; [assumption|assumption|]. now apply tree_all_children.
Qed.
End LoopBranches.

(* ================================================================== *)
(** * The loop of [cobweb]: merging the two best children *)

Section LoopMerge.
Context {F : Type} {FO : FloatOps F} {FL : FloatLaws F}.
Variable min_cu : F.
Variable instance : Instance.
Variable fuel : nat.

Hypothesis IHloop :
  forall n k,
    (num_concepts n <= fuel)%nat -> tree_struct k n ->
    wp (cobweb_loop min_cu fuel n instance) k
       (loop_post min_cu instance n k).

Lemma merge_branch current k k2 best1 best2 rest0 :
  tree_struct k current -> (num_concepts current <= S fuel)%nat ->
  Permutation (best1 :: best2 :: rest0) (children current) ->
  (2 < List.length (children current))%nat -> (k <= k2)%nat ->
  wp ('(current', new_child) <-
        merge (increment_counts current instance) best1 best2 ;;
      '(new_child', leaf) <- cobweb_loop min_cu fuel new_child instance ;;
      ret (replace_child current' new_child new_child', leaf))
     k2 (loop_post min_cu instance current k).
Proof.
  intros Hts Hfuel Hperm0 Hlen Hk.
  pose proof Hts as (Hc0 & Hfresh & Htree & Hnd & Hle).
  assert (Hne : children current <> []).
  { intros E. rewrite E in Hlen. simpl in Hlen. lia. }
  pose proof (tree_all_root _ _ Htree) as [[Hcons|Hcons] Hpos];
    [contradiction|].
  pose proof (tree_all_children _ _ Htree) as Hall.
  set (p0 := increment_counts current instance).
  assert (Hp0c : children p0 = children current)
    by apply increment_counts_children.
  assert (Hin1 : In best1 (children current)).
  { apply (Permutation_in _ Hperm0). now left. }
  assert (Hin2 : In best2 (children current)).
  { apply (Permutation_in _ Hperm0). right. now left. }
  pose proof (NoDup_ids_children _ Hnd) as Hndc.
  assert (Hne12 : concept_id best1 <> concept_id best2).
  { pose proof (Permutation_NoDup
                  (Permutation_sym (Permutation_map concept_id Hperm0)) Hndc)
      as H.
    simpl in H. inversion H as [|? ? Hx _]; subst. intros E. apply Hx.
    rewrite E. now left. }
  destruct (merge_ok p0 best1 best2 k2) as (rest & Hperm & Hmerge);
    try (rewrite Hp0c; assumption); try assumption.
  rewrite Hp0c in Hperm.
  apply wp_bind. eapply wp_eq; [exact Hmerge|]. cbv beta iota.
  set (nc := Node (S k2) (count best1 + count best2)
                  (av_update (av_update [] (av_counts best1))
                             (av_counts best2))
                  [best1; best2]) in *.
  set (p := set_children p0 (rest ++ [nc])) in *.
  destruct (set_children_fields p0 (rest ++ [nc])) as (Pi & Pc & Pa & Pch).
  fold p in Pi, Pc, Pa, Pch.
  unfold p0 in Pi, Pc, Pa.
  rewrite increment_counts_id in Pi. rewrite increment_counts_count in Pc.
  rewrite increment_counts_av in Pa.
  (* the children, up to order *)
  assert (Hpos' : Forall (fun c => 1 <= count c) (best1 :: best2 :: rest)).
  { eapply Permutation_Forall; [apply Permutation_sym, Hperm|exact Hpos]. }
  assert (Hall' : Forall (tree_all node_struct) (best1 :: best2 :: rest)).
  { eapply Permutation_Forall; [apply Permutation_sym, Hperm|exact Hall]. }
  inversion Hpos' as [|? ? Hp1 Hpos'']; subst.
  inversion Hpos'' as [|? ? Hp2 Hposr]; subst.
  inversion Hall' as [|? ? Ha1 Hall'']; subst.
  inversion Hall'' as [|? ? Ha2 Hallr]; subst.
  assert (Hrest : rest <> []).
  { intros E. subst rest. apply Permutation_length in Hperm.
    simpl in Hperm. lia. }
  (* identities *)
  pose proof Hnd as Hnd'. rewrite ids_unfold in Hnd'.
  pose proof Hle as Hle'. rewrite ids_unfold in Hle'.
  apply (Forall_le_mono _ k k2 Hk) in Hle'.
  destruct (ids_merge (concept_id current) best1 best2 rest
                      (children current) k2
                      (count best1 + count best2)
                      (av_update (av_update [] (av_counts best1))
                                 (av_counts best2))
                      Hperm Hnd' Hle') as (Hpids & Hpnd).
  fold nc in Hpids, Hpnd.
  assert (Hidsp : ids p = concept_id current :: flat_map ids (rest ++ [nc])).
  { now rewrite ids_unfold, Pi, Pch. }
  rewrite <- Hidsp in Hpids, Hpnd. rewrite <- ids_unfold in Hpids.
  assert (Hinnc : In nc (children p)).
  { rewrite Pch. apply in_or_app. right. now left. }
  assert (Hple : Forall (fun i => (i <= S k2)%nat) (ids p)).
  { eapply Permutation_Forall; [apply Permutation_sym, Hpids|].
    constructor; [lia|].
    apply (Forall_le_mono _ k); [lia|assumption]. }
  (* the merged node *)
  assert (Hnc_struct : tree_all node_struct nc).
  { rewrite tree_all_unfold. simpl. split.
    - split; [right; simpl; lia|].
      unfold pos_children. simpl. auto.
    - auto. }
  assert (Hnc : tree_struct (S k2) nc).
  { unfold tree_struct. split_and.
    - simpl. lia.
    - simpl. intros. lia.
    - exact Hnc_struct.
    - now apply (NoDup_ids_child p).
    - rewrite Forall_forall in *. intros x Hx. apply Hple.
      now apply (ids_child p nc). }
  assert (Hsize : (num_concepts nc <= fuel)%nat).
  { rewrite (num_concepts_unfold current) in Hfuel.
    rewrite <- (list_sum_perm _ _ (Permutation_map num_concepts Hperm))
      in Hfuel.
    simpl in Hfuel. simpl.
    destruct rest as [|r rest']; [contradiction|].
    simpl in Hfuel. pose proof (num_concepts_pos r). lia. }
  apply wp_bind. eapply wp_mono; [apply (IHloop nc (S k2) Hsize Hnc)|].
  intros [nc' leaf] k3 Hpost. apply wp_ret.
  rewrite (replace_child_eq p rest nc [] nc' Pch).
  2:{ now apply NoDup_ids_children. }
  assert (Hopen : open_struct (S k2) p).
  { unfold open_struct, pos_children. rewrite Pc, Pch. split_and.
    - rewrite Hcons.
      rewrite <- (zsum_perm _ _ (Permutation_map count Hperm)).
      rewrite map_app, zsum_app. simpl. lia.
    - apply Forall_app. split; [assumption|].
      constructor; [simpl; lia|constructor].
    - apply Forall_app. split; [assumption|].
      constructor; [assumption|constructor].
    - assumption.
    - assumption. }
  destruct (close_parent min_cu instance p rest nc [] (nc', leaf) (S k2) k3
                         Pch Hopen Hpost)
    as (Ct & Cnd & Cids & Cin & C2 & Cav).
  cbn [fst snd] in *.
  destruct Hpost as (Hk3 & _ & _ & _ & _ & _ & Hleaf & _).
  destruct (set_children_fields p (rest ++ nc' :: [])) as (Fi & Fc & Fa & Fch).
  unfold loop_post. cbn [fst snd]. split_and.
  - lia.
  - now rewrite Fi.
  - now rewrite Fc.
  - exact Ct.
  - exact Cnd.
  - intros i Hi. apply Cids in Hi. destruct Hi as [Hi|Hi]; [|right; lia].
    apply (Permutation_in _ Hpids) in Hi.
    destruct Hi as [<-|Hi]; [right; lia|now left].
  - exact Hleaf.
  - exact Cin.
  - intros Hm H2.
    pose proof (tree_all_children _ _ H2) as H2c.
    assert (H2' : Forall (tree_all two_kids) (best1 :: best2 :: rest)).
    { eapply Permutation_Forall; [apply Permutation_sym, Hperm|exact H2c]. }
    inversion H2' as [|? ? Hk1 H2'']; subst.
    inversion H2'' as [|? ? Hk2 H2r]; subst.
    apply C2; [assumption| |].
    + right. rewrite Pch, length_app. simpl.
      apply Permutation_length in Hperm. simpl in Hperm. lia.
    + rewrite Pch. apply Forall_app. split; [assumption|].
      constructor; [|constructor].
      rewrite tree_all_unfold. simpl. split; [right; simpl; lia|auto].
  - intros Hplain Hav.
    pose proof (tree_all_root _ _ Hav) as [Hwf [Hac|Hac]]; [contradiction|].
    pose proof (tree_all_children _ _ Hav) as Havc.
    assert (Hav' : Forall (tree_all av_ok) (best1 :: best2 :: rest)).
    { eapply Permutation_Forall; [apply Permutation_sym, Hperm|exact Havc]. }
    inversion Hav' as [|? ? Hv1 Hav'']; subst.
    inversion Hav'' as [|? ? Hv2 Havr]; subst.
    pose proof (tree_all_root _ _ Hv1) as [Hwf1 _].
    pose proof (tree_all_root _ _ Hv2) as [Hwf2 _].
    assert (Hgnc : forall a v,
               av_get (av_counts nc) a v
               = av_get (av_counts best1) a v + av_get (av_counts best2) a v).
    { intros a v. simpl.
      rewrite !av_get_update, !av_total_get by assumption.
      rewrite av_get_nil. lia. }
    split.
    + apply Cav; [assumption|]. unfold open_av. rewrite Pa, Pch. split_and.
      * now apply av_wf_incr.
      * intros a v. rewrite av_get_incr, Hac.
        rewrite <- (zsum_perm _ _
                      (Permutation_map
                         (fun c => av_get (av_counts c) a v) Hperm)).
        rewrite map_app, zsum_app. simpl. rewrite Hgnc. lia.
      * apply Forall_app. split; [assumption|].
        constructor; [|constructor].
        rewrite tree_all_unfold. split.
        -- split.
           ++ simpl. apply av_wf_update, av_wf_update, av_wf_nil.
           ++ right. intros a v. rewrite Hgnc. simpl. lia.
        -- simpl. auto.
    + intros a v. rewrite Fa, Pa. apply av_get_incr.
Qed.
End LoopMerge.

(* ================================================================== *)
(** * The loop of [cobweb]: splitting the best child, and the whole loop *)

Section LoopSplit.
Context {F : Type} {FO : FloatOps F} {FL : FloatLaws F}.
Variable min_cu : F.
Variable instance : Instance.
Variable fuel : nat.

Hypothesis IHloop :
  forall n k,
    (num_concepts n <= fuel)%nat -> tree_struct k n ->
    wp (cobweb_loop min_cu fuel n instance) k
       (loop_post min_cu instance n k).

Lemma split_branch current k k2 best1 :
  tree_struct k current -> (num_concepts current <= S fuel)%nat ->
  In best1 (children current) -> children best1 <> [] -> (k <= k2)%nat ->
  wp (current' <- split current best1 ;;
      cobweb_loop min_cu fuel current' instance)
     k2 (loop_post min_cu instance current k).
Proof.
  intros Hts Hfuel Hin Hb1 Hk.
  pose proof Hts as (Hc0 & Hfresh & Htree & Hnd & Hle).
  assert (Hne : children current <> []).
  { intros E. rewrite E in Hin. contradiction. }
  pose proof (tree_all_root _ _ Htree) as [[Hcons|Hcons] Hpos];
    [contradiction|].
  pose proof (tree_all_children _ _ Htree) as Hall.
  destruct (split_ok current best1 k2 Hin (NoDup_ids_children _ Hnd))
    as (l1 & l2 & Hl & Hsplit).
  apply wp_bind. eapply wp_eq; [exact Hsplit|].
  set (p := set_children current ((l1 ++ l2) ++ children best1)) in *.
  destruct (set_children_fields current ((l1 ++ l2) ++ children best1))
    as (Pi & Pc & Pa & Pch).
  fold p in Pi, Pc, Pa, Pch.
  unfold pos_children in Hpos. rewrite Hl in Hpos, Hall, Hcons.
  apply Forall_mid in Hpos. destruct Hpos as [Hposb Hpos].
  apply Forall_mid in Hall. destruct Hall as [Hallb Hall].
  rewrite zsum_map_mid in Hcons.
  pose proof (tree_all_root _ _ Hallb) as [[Hbc|Hbc] Hbpos];
    [contradiction|].
  pose proof (tree_all_children _ _ Hallb) as Hball.
  (* identities *)
  pose proof (ids_split (concept_id current) l1 best1 l2) as Hperm.
  rewrite <- Hl, <- ids_unfold in Hperm.
  assert (Hidsp : ids p
                  = concept_id current
                    :: flat_map ids ((l1 ++ l2) ++ children best1)).
  { now rewrite ids_unfold, Pi, Pch. }
  rewrite <- Hidsp in Hperm.
  assert (Hsub : forall i, In i (ids p) -> In i (ids current)).
  { intros i Hi. apply (Permutation_in _ (Permutation_sym Hperm)).
    now right. }
  assert (Hp : tree_struct k2 p).
  { unfold tree_struct. split_and.
    - now rewrite Pc.
    - rewrite Pc, Pa. exact Hfresh.
    - rewrite tree_all_unfold, Pch. split.
      + split.
        * right. rewrite Pc, Pch, map_app, zsum_app.
          rewrite Hcons, Hbc. lia.
        * unfold pos_children. rewrite Pch. apply Forall_app. now split.
      + apply Forall_app. now split.
    - apply (Permutation_NoDup Hperm) in Hnd. now inversion Hnd.
    - rewrite Forall_forall in *. intros i Hi.
      apply Hsub, Hle in Hi. lia. }
  assert (Hsize : (num_concepts p <= fuel)%nat).
  { rewrite (num_concepts_unfold current), Hl in Hfuel.
    rewrite (num_concepts_unfold p), Pch.
    rewrite !map_app, !list_sum_app in *. simpl in Hfuel.
    rewrite (num_concepts_unfold best1) in Hfuel. lia. }
  eapply wp_mono; [apply (IHloop p k2 Hsize Hp)|].
  intros r k3 (Hk3 & Hid & Hcnt & Ht & Hndr & Hids & Hleaf & Hinl & H2 & Hav).
  unfold loop_post. split_and.
  - lia.
  - now rewrite Hid.
  - now rewrite Hcnt.
  - exact Ht.
  - exact Hndr.
  - intros i Hi. apply Hids in Hi.
    destruct Hi as [Hi|Hi]; [left; now apply Hsub|right; lia].
  - exact Hleaf.
  - exact Hinl.
  - intros Hm H2c. apply H2; [assumption|].
    pose proof (tree_all_children _ _ H2c) as H2all.
    rewrite Hl in H2all. apply Forall_mid in H2all.
    destruct H2all as [H2b H2all].
    pose proof (tree_all_root _ _ H2b) as [H2b'|H2b']; [contradiction|].
    rewrite tree_all_unfold, Pch. split.
    + right. rewrite Pch, length_app.
      apply (Nat.le_trans _ _ _ H2b'). apply Nat.le_add_l.
    + apply Forall_app. split; [assumption|]. now apply tree_all_children.
  - intros Hplain Hav0.
    pose proof (tree_all_root _ _ Hav0) as [Hwf [Hac|Hac]]; [contradiction|].
    pose proof (tree_all_children _ _ Hav0) as Havc.
    rewrite Hl in Havc. apply Forall_mid in Havc.
    destruct Havc as [Havb Havc].
    pose proof (tree_all_root _ _ Havb) as [_ [Hbac|Hbac]]; [contradiction|].
    rewrite <- Pa. apply Hav; [assumption|].
    rewrite tree_all_unfold, Pch. split.
    + split; [now rewrite Pa|].
      right. intros a v.
      rewrite Pa, Pch, (map_app _ (l1 ++ l2)), zsum_app.
      rewrite Hac, Hl, zsum_map_mid, Hbac. lia.
    + apply Forall_app. split; [assumption|]. now apply tree_all_children.
Qed.
End LoopSplit.

Section LoopSpec.
Context {F : Type} {FO : FloatOps F} {FL : FloatLaws F}.
Variable min_cu : F.
Variable instance : Instance.

(** The loop returns within [num_concepts current] iterations and keeps
    the invariant. *)
Theorem cobweb_loop_spec fuel :
  forall current k,
    (num_concepts current <= fuel)%nat -> tree_struct k current ->
    wp (cobweb_loop min_cu fuel current instance) k
       (loop_post min_cu instance current k).
Proof.
  induction fuel as [|fuel IH]; intros current k Hfuel Hts.
  { pose proof (num_concepts_pos current). lia. }
  destruct (children current) as [|c0 cs0] eqn:Hch.
  { now apply leaf_branch. }
  assert (Hne : children current <> []) by (rewrite Hch; discriminate).
  pose proof Hts as (Hc0 & Hfresh & Htree & Hnd & Hle).
  pose proof (tree_all_root _ _ Htree) as [Hcons Hpos].
  pose proof (tree_all_children _ _ Htree) as Hall.
  pose proof (internal_count current Hne (tree_all_root _ _ Htree)) as Hc1.
  rewrite cobweb_loop_S, Hch. cbv iota.
  apply wp_bind.
  eapply wp_mono;
    [apply (wp_two_best_children_in current instance k Hne Hc0 Hpos)|].
  intros [[b1cu b1] o2] k1 [Hk1 Hsel]. cbn [fst snd] in Hsel.
  cbv beta iota.
  assert (Hin1 : In b1 (children current)).
  { destruct o2 as [[b2cu b2]|].
    - destruct Hsel as (rest & Hp). apply (Permutation_in _ Hp). now left.
    - rewrite Hsel. now left. }
  assert (Hpos1 : 1 <= count b1).
  { unfold pos_children in Hpos. rewrite Forall_forall in Hpos. auto. }
  assert (Hstruct1 : tree_all node_struct b1).
  { rewrite Forall_forall in Hall. auto. }
  apply wp_bind.
  eapply wp_mono.
  { apply (wp_get_best_operation current instance (b1cu, b1) o2 k1).
    - assumption.
    - assumption.
    - apply (tree_all_root _ _ Hstruct1).
    - simpl. lia.
    - intros [b2cu b2] ->. simpl. destruct Hsel as (rest & Hp).
      unfold pos_children in Hpos. rewrite Forall_forall in Hpos.
      assert (In b2 (children current)).
      { apply (Permutation_in _ Hp). right. now left. }
      specialize (Hpos b2 H). lia. }
  intros [action_cu best_action] k2 [Hk2 Hact]. cbn [fst snd] in Hact.
  cbv beta iota.
  destruct (fleb action_cu min_cu) eqn:Hprune.
  { apply wp_ret. apply loop_post_leaf; [assumption|lia]. }
  destruct Hact as [Hb|[Hn|[(Hm & Ho2 & Hlen)|(Hs & Hb1ch)]]];
    subst best_action; eval_string_eqb.
  - apply (best_branch min_cu instance fuel IH); try assumption. lia.
  - apply (new_branch min_cu instance); try assumption. lia.
  - destruct o2 as [[b2cu b2]|]; [|contradiction].
    destruct Hsel as (rest & Hp). simpl in Hp.
    apply (merge_branch min_cu instance fuel IH current k k2 b1 b2 rest);
      try assumption. lia.
  - apply (split_branch min_cu instance fuel IH); try assumption. lia.
Qed.
End LoopSpec.

(* ================================================================== *)
(** * ifit and fit *)

Lemma tree_all_impl (P Q : Cobweb -> Prop) t :
  (forall n, P n -> Q n) -> tree_all P t -> tree_all Q t.
Proof.
  intros H. rewrite !tree_all_nodes. apply Forall_impl. exact H.
Qed.

Lemma loop_post_tree_struct {F} {FO : FloatOps F} (min_cu : F) instance
      current k r k' :
  tree_struct k current ->
  loop_post min_cu instance current k r k' ->
  tree_struct k' (fst r).
Proof.
  intros (Hc0 & Hfresh & Htree & Hnd & Hle)
         (Hk & Hid & Hcnt & Ht & Hndr & Hids & _).
  unfold tree_struct. split_and.
  - lia.
  - intros; lia.
  - exact Ht.
  - exact Hndr.
  - rewrite Forall_forall in *. intros i Hi.
    destruct (Hids i Hi) as [Hi'|Hi']; [apply Hle in Hi'|]; lia.
Qed.

Lemma tree_struct_fresh k : tree_struct (S k) (Node (S k) 0 [] []).
Proof.
  unfold tree_struct. split_and.
  - simpl. lia.
  - reflexivity.
  - apply tree_all_leaf; [reflexivity|]. split; [now left|constructor].
  - repeat constructor. intros [].
  - repeat constructor.
Qed.

Section Fit.
Context {F : Type} {FO : FloatOps F} {FL : FloatLaws F}.
Variable min_cu : F.

Lemma ifit_spec root instance k :
  tree_struct k root ->
  wp (ifit min_cu root instance) k (loop_post min_cu instance root k).
Proof.
  intros H. unfold ifit, cobweb. now apply cobweb_loop_spec.
Qed.

Lemma fit_spec instances :
  forall root k,
    tree_struct k root ->
    wp (fit min_cu root instances) k
       (fun t k' =>
          tree_struct k' t /\
          (fleb f0 min_cu = true ->
           tree_all two_kids root -> tree_all two_kids t) /\
          (Forall plain_instance instances ->
           tree_all av_ok root -> tree_all av_ok t)).
Proof.
  unfold fit.
  induction instances as [|i instances IH]; intros root k Hts; simpl.
  - apply wp_ret. auto.
  - apply wp_bind. apply wp_bind.
    eapply wp_mono; [apply (ifit_spec root i k Hts)|].
    intros [t leaf] k1 Hpost. apply wp_ret.
    pose proof (loop_post_tree_struct _ _ _ _ _ _ Hts Hpost) as Hts1.
    destruct Hpost as (_ & _ & _ & _ & _ & _ & _ & _ & H2 & Hav).
    cbn [fst snd] in *.
    eapply wp_mono; [apply (IH t k1 Hts1)|].
    intros t' k2 (Hts2 & H2' & Hav'). split_and.
    + exact Hts2.
    + auto.
    + intros Hplain Hroot. inversion Hplain; subst.
      apply Hav'; [assumption|]. now apply Hav.
Qed.

(** A sequence of [ifit] calls on a fresh tree. *)
Lemma fit_fresh_spec instances k :
  wp (t0 <- init ;; fit min_cu t0 instances) k
     (fun t k' =>
        tree_struct k' t /\
        (fleb f0 min_cu = true -> tree_all two_kids t) /\
        (Forall plain_instance instances -> tree_all av_ok t)).
Proof.
  apply wp_bind, wp_init.
  eapply wp_mono; [apply fit_spec, tree_struct_fresh|].
  intros t k' (Hts & H2 & Hav). split_and.
  - exact Hts.
  - intros Hm. apply H2; [assumption|].
    apply tree_all_leaf; [reflexivity|]. now left.
  - intros Hp. apply Hav; [assumption|].
    apply tree_all_leaf; [reflexivity|]. split; [apply av_wf_nil|now left].
Qed.
End Fit.

(* ================================================================== *)
(** * Count conservation and the two-children invariant *)




(** On the tree of the red, red, blue session the check of the source
    passes. *)
Lemma verify_counts_red_red_blue :
  verify_counts Examples.red_red_blue_tree 11%nat = Ok (tt, 11%nat).
Proof. vm_compute. reflexivity. Qed.




(** Every tree that [ifit] calls build from a fresh one meets what
    [two_best_children] and [cobweb_categorize] need: every child has
    absorbed an instance. *)
Lemma fit_counts_positive {F : Type} {FO : FloatOps F} {FL : FloatLaws F}
      (min_cu : F) (instances : list Instance) (k : nat) :
  exists t k',
    (t0 <- init ;; fit min_cu t0 instances) k = Ok (t, k') /\
    0 <= count t /\ tree_all pos_children t.
Proof.
  destruct (wp_run _ _ _ (fit_fresh_spec min_cu instances k))
    as (t & k' & Hrun & (Hc & _ & Hts & _) & _).
  exists t, k'. split; [exact Hrun|]. split; [exact Hc|].
  eapply tree_all_impl; [|exact Hts]. intros n [_ H]. exact H.
Qed.

(* ================================================================== *)
(** * The red, red, blue scenario *)

(** C6: starting from a fresh tree (count 0, no children), [ifit] of
    [{"color": "red"}], of [{"color": "red"}] and of [{"color": "blue"}]
    leave a root of count 3 with at least two children, whose
    [get_probability("color", "red")] is 2/3; both in exact arithmetic and
    in binary64, where 2/3 is the float [2.0 / 3.0]. *)
Theorem red_red_blue_scenario (k : nat) :
  (exists t k',
      Examples.red_red_blue (F := Q) k = Ok (t, k') /\
      count t = 3 /\
      (2 <= List.length (children t))%nat /\
      get_probability t "color" (VStr "red") k' = Ok ((2 # 3)%Q, k')) /\
  (exists t k',
      Examples.red_red_blue (FO := Binary64_FloatOps) k = Ok (t, k') /\
      count t = 3 /\
      (2 <= List.length (children t))%nat /\
      get_probability (FO := Binary64_FloatOps) t "color" (VStr "red") k'
      = Ok (fdiv (FloatOps := Binary64_FloatOps)
                 (of_int (FloatOps := Binary64_FloatOps) 2)
                 (of_int (FloatOps := Binary64_FloatOps) 3), k')).
Proof.
  split.
  - eexists. eexists. split; [vm_compute; reflexivity|].
    split; [reflexivity|]. split; [simpl; lia|]. vm_compute. reflexivity.
  - eexists. eexists. split; [vm_compute; reflexivity|].
    split; [reflexivity|]. split; [simpl; lia|]. vm_compute. reflexivity.
Qed.

(* ================================================================== *)
(** * The formulas of category utility *)

Section Formulas.
Local Open Scope Q_scope.






End Formulas.

Section FormulaCU.
Local Open Scope Q_scope.


End FormulaCU.


(* ================================================================== *)
(** * The order of strings *)


Lemma string_compare_refl s : String.compare s s = Eq.
Proof.
  induction s as [|a s IH]; simpl; [reflexivity|].
  unfold Ascii.compare. now rewrite N.compare_refl.
Qed.




(* ================================================================== *)
(** * The choice of get_best_operation *)

Section BestOperation.
Context {F : Type} {FO : FloatOps F} {FL : FloatLaws F}.




End BestOperation.


(** The tree of the example is the one four [ifit] calls build. *)
Lemma tie_tree_reached :
  (t <- init ;;
   fit 0%Q t [[("a"%string, VStr "y"); ("b"%string, VStr "q")];
              [("a"%string, VStr "y")];
              [("a"%string, VStr "x")];
              [("a"%string, VStr "x")]]) 0%nat
  = Ok (TieExample.tie_tree, 42%nat).
Proof. vm_compute. reflexivity. Qed.


(* ================================================================== *)
(** * One iteration of the loop: pruning, and the leaf *)

(** C4: at a node with children, when the utility of the operation that
    [get_best_operation] returns does not exceed [min_cu], the node
    absorbs the instance, loses all its children and is the node
    returned.  The loop of [cobweb] reaches this at any depth; [ifit] is
    the loop started at the root. *)
Theorem prune_when_no_operation_pays {F : Type} {FO : FloatOps F}
        (min_cu : F) (fuel : nat) (current : Cobweb) (instance : Instance)
        (k k1 k2 : nat) (best1 : F * Cobweb) (best2 : option (F * Cobweb))
        (action_cu : F) (best_action : string) :
  children current <> [] ->
  two_best_children current instance k = Ok ((best1, best2), k1) ->
  get_best_operation current instance best1 best2 default_ops k1
  = Ok ((action_cu, best_action), k2) ->
  fleb action_cu min_cu = true ->
  let current' := set_children (increment_counts current instance) [] in
  cobweb_loop min_cu (S fuel) current instance k
  = Ok ((current', current'), k2) /\
  ifit min_cu current instance k = Ok ((current', current'), k2) /\
  children current' = [] /\
  concept_id current' = concept_id current /\
  count current' = count current + 1 /\
  (forall attr val,
      av_get (av_counts current') attr val
      = av_get (av_counts current) attr val + inst_count instance attr val).
Proof.
  intros Hne Hbest Hop Hcu current'.
  assert (Hloop : forall fuel',
             cobweb_loop min_cu (S fuel') current instance k
             = Ok ((current', current'), k2)).
  { intros fuel'. rewrite cobweb_loop_S.
    destruct (children current) as [|c cs]; [contradiction|].
    rewrite (bind_ok _ _ _ _ _ Hbest).
    rewrite (bind_ok _ _ _ _ _ Hop).
    destruct best1 as [best1_cu best1n]. rewrite Hcu. reflexivity. }
  split_and.
  - apply Hloop.
  - unfold ifit, cobweb. rewrite num_concepts_unfold. apply Hloop.
  - reflexivity.
  - unfold current'. simpl. apply increment_counts_id.
  - unfold current'. simpl. apply increment_counts_count.
  - intros a v. unfold current'. simpl.
    rewrite increment_counts_av. apply av_get_incr.
Qed.



(* ================================================================== *)
(** * Merge then split *)

Lemma list_remove_last rest x k :
  (forall c, In c rest -> concept_id c <> concept_id x) ->
  list_remove (rest ++ [x]) x k = Ok (rest, k).
Proof.
  induction rest as [|y rest IH]; intros H; simpl.
  - now rewrite same_node_refl.
  - assert (E : same_node y x = false).
    { apply Nat.eqb_neq. apply H. now left. }
    rewrite E. rewrite (bind_ok _ _ _ _ _ (IH (fun c Hc => H c (or_intror Hc)))).
    reflexivity.
Qed.

(** C7: for two distinct children [c1] and [c2] of a node, [merge(c1, c2)]
    followed at once by [split] of the merged node leaves [c1] and [c2]
    direct children of the node again, each with the count, the
    attribute/value counts and the subtree it had; the node keeps its own
    counts and its other children (the two are now last). *)
Theorem merge_then_split_restores (self c1 c2 : Cobweb) (k : nat) :
  In c1 (children self) -> In c2 (children self) ->
  concept_id c1 <> concept_id c2 ->
  NoDup (map concept_id (children self)) ->
  Forall (fun c => (concept_id c <= k)%nat) (children self) ->
  exists self1 merged self2 rest,
    merge self c1 c2 k = Ok ((self1, merged), S k) /\
    children merged = [c1; c2] /\
    count merged = count c1 + count c2 /\
    split self1 merged (S k) = Ok (self2, S k) /\
    children self2 = rest ++ [c1; c2] /\
    Permutation (children self2) (children self) /\
    In c1 (children self2) /\ In c2 (children self2) /\
    concept_id self2 = concept_id self /\
    count self2 = count self /\
    av_counts self2 = av_counts self.
Proof.
  intros H1 H2 Hne Hnd Hle.
  destruct (merge_ok self c1 c2 k H1 H2 Hne Hnd) as (rest & Hperm & Hmerge).
  set (merged := Node (S k) (count c1 + count c2)
                      (av_update (av_update [] (av_counts c1)) (av_counts c2))
                      [c1; c2]) in *.
  exists (set_children self (rest ++ [merged])), merged,
    (set_children self (rest ++ [c1; c2])), rest.
  assert (Hfresh : forall c, In c rest -> concept_id c <> concept_id merged).
  { intros c Hc. rewrite Forall_forall in Hle.
    assert (Hin : In c (children self)).
    { apply (Permutation_in _ Hperm). right. right. exact Hc. }
    apply Hle in Hin. simpl. lia. }
  split_and.
  - exact Hmerge.
  - reflexivity.
  - reflexivity.
  - unfold split.
    destruct (set_children_fields self (rest ++ [merged])) as (_ & _ & _ & Fch).
    rewrite Fch, (bind_ok _ _ _ _ _ (list_remove_last rest merged (S k) Hfresh)).
    unfold ret. rewrite fold_append_child. destruct self; reflexivity.
  - now destruct self.
  - destruct self as [i c av cs]. simpl in *.
    eapply Permutation_trans; [apply Permutation_app_comm|]. exact Hperm.
  - destruct self; simpl. apply in_or_app. right. now left.
  - destruct self; simpl. apply in_or_app. right. right. now left.
  - now destruct self.
  - now destruct self.
  - now destruct self.
Qed.

(* ================================================================== *)
(** * Categorization *)

Section Categorize.
Context {F : Type} {FO : FloatOps F} {FL : FloatLaws F}.

End Categorize.


(* ================================================================== *)
(** * The two best children *)


(* ================================================================== *)
(** * The theorems at concrete inputs *)




Lemma prune_when_no_operation_pays_witness :
  exists current' k2,
    ifit 0%Q Examples.twins Examples.red 3%nat
    = Ok ((current', current'), k2) /\
    children current' = [] /\
    count current' = 3.
Proof.
  edestruct (@prune_when_no_operation_pays Q Q_FloatOps 0%Q 0%nat
               Examples.twins Examples.red 3%nat)
    as (_ & H2 & H3 & _ & H5 & _).
  - discriminate.
  - lazy. reflexivity.
  - lazy. reflexivity.
  - lazy. reflexivity.
  - eexists. eexists. split; [exact H2|]. split; [exact H3|exact H5].
Defined.


Lemma merge_then_split_restores_witness :
  exists self1 merged self2 rest,
    merge TieExample.tie_tree
          (Node 7 1 [("a"%string, [(VStr "y", 1)]);
                     ("b"%string, [(VStr "q", 1)])] [])
          (Node 8 1 [("a"%string, [(VStr "y", 1)])] []) 42%nat
    = Ok ((self1, merged), 43%nat) /\
    children merged
    = [Node 7 1 [("a"%string, [(VStr "y", 1)]);
                 ("b"%string, [(VStr "q", 1)])] [];
       Node 8 1 [("a"%string, [(VStr "y", 1)])] []] /\
    count merged = 1 + 1 /\
    split self1 merged 43%nat = Ok (self2, 43%nat) /\
    children self2
    = rest ++ [Node 7 1 [("a"%string, [(VStr "y", 1)]);
                         ("b"%string, [(VStr "q", 1)])] [];
               Node 8 1 [("a"%string, [(VStr "y", 1)])] []] /\
    Permutation (children self2) (children TieExample.tie_tree) /\
    In (Node 7 1 [("a"%string, [(VStr "y", 1)]);
                  ("b"%string, [(VStr "q", 1)])] []) (children self2) /\
    In (Node 8 1 [("a"%string, [(VStr "y", 1)])] []) (children self2) /\
    concept_id self2 = concept_id TieExample.tie_tree /\
    count self2 = count TieExample.tie_tree /\
    av_counts self2 = av_counts TieExample.tie_tree.
Proof.
  apply (merge_then_split_restores TieExample.tie_tree).
  - left. reflexivity.
  - right. left. reflexivity.
  - discriminate.
  - simpl. repeat constructor; simpl; intros H;
      repeat (destruct H as [H|H]; try discriminate); assumption.
  - repeat constructor; simpl; lia.
Defined.


